(** * thinc/model.pyx: linear scoring and the binary weight codec

    A shallow embedding of [LinearModel] (scoring, dump, load), of the
    [_Writer] / [_Reader] pair behind it and of the opening statements of
    [MultiLayerPerceptron.backprop], followed by the properties of the
    specification that concern them. *)

From Stdlib Require Import ZArith List Lia Bool.
From Stdlib Require Import Strings.Byte.
From Stdlib Require Import Sorting.Permutation Sorting.Sorted.
From Stdlib Require Import Floats.SpecFloat.
From stdpp Require Import base option list gmap strings.

Local Open Scope Z_scope.

(** ** C types of [typedefs.pxd] and [structs.pxd] *)

(** Modelled from the spec: thinc/typedefs.pxd is not part of the sources.
    A feature key is an unsigned integer of a large id space ([uint64_t]),
    a class id a signed 32-bit integer, a weight a floating point number,
    taken here as the C [float], IEEE-754 binary32. *)
Definition feat_t := Z.
Definition class_t := Z.
Definition weight_t := spec_float.

Definition sizeof_feat_t : nat := 8.
Definition sizeof_class_t : nat := 4.
Definition sizeof_int32_t : nat := 4.
Definition sizeof_weight_t : nat := 4.

(** binary32: 24 bits of mantissa, infinities at exponent 128. *)
Definition prec : Z := 24.
Definition emax : Z := 128.

Definition weight_add : weight_t -> weight_t -> weight_t := SFadd prec emax.
Definition weight_sub : weight_t -> weight_t -> weight_t := SFsub prec emax.
Definition weight_mul : weight_t -> weight_t -> weight_t := SFmul prec emax.

Arguments weight_add : simpl never.
Arguments weight_sub : simpl never.
Arguments weight_mul : simpl never.

(** The float literal [m * 2^e], rounded to binary32. *)
Definition weight_lit (m e : Z) : weight_t := binary_normalize prec emax m e false.

Definition weight_zero : weight_t := S754_zero false.

(** Modelled from the spec: thinc/structs.pxd is not part of the sources.
    [SparseArrayC] is one (class, weight) slot of a sparse vector; of
    [FeatureC] the scorer reads the fields [key] and [val]. *)
Record SparseArrayC := mkSparse { key : Z; val : weight_t }.
Record FeatureC := mkFeature { feat_key : feat_t; feat_val : weight_t }.

(** A [SparseArrayC*] is the allocated region it points to: the slots up to
    and including the terminating slot of negative key, and whatever the
    allocation holds after it. *)
Abbreviation SparseVec := (list SparseArrayC).

(** ** The weight table *)

(** [PreshMap] (package preshed) maps a key to a pointer-sized value; the
    value [None] is the null pointer. *)
Abbreviation PreshMap := (gmap Z (option SparseVec)).

(** [map_get] returns the null pointer for a key that is not in the table. *)
Definition map_get (weights_table : PreshMap) (k : feat_t) : option SparseVec :=
  match weights_table !! k with
  | Some (Some class_weights) => Some class_weights
  | _ => None
  end.

(** ** LinearModel.set_scores *)

(** The inner [while class_weights[j].key >= 0] loop, from slot [j] on, of
    which [class_weights] is the remainder of the region.  [None] is an
    access outside the region or outside the score buffer, which C leaves
    undefined. *)
Fixpoint add_class_weights (class_weights : SparseVec) (feat_val0 : weight_t)
    (scores : list weight_t) : option (list weight_t) :=
  match class_weights with
  | [] => None
  | cw :: rest =>
      if 0 <=? key cw then
        match scores !! Z.to_nat (key cw) with
        | Some s =>
            add_class_weights rest feat_val0
              (<[Z.to_nat (key cw) := weight_add s (weight_mul (val cw) feat_val0)]> scores)
        | None => None
        end
      else Some scores
  end.

(** The body of the [for i in range(nr_feat)] loop for one feature. *)
Definition score_feature (weights_table : PreshMap) (feat : FeatureC)
    (scores : list weight_t) : option (list weight_t) :=
  match map_get weights_table (feat_key feat) with
  | Some class_weights => add_class_weights class_weights (feat_val feat) scores
  | None => Some scores
  end.

(** The outer loop over [i = i0, i0 + 1, ...], [n] iterations. *)
Fixpoint set_scores_from (weights_table : PreshMap) (feats : list FeatureC)
    (i0 n : nat) (scores : list weight_t) : option (list weight_t) :=
  match n with
  | O => Some scores
  | S n' =>
      match feats !! i0 with
      | Some feat =>
          match score_feature weights_table feat scores with
          | Some scores' => set_scores_from weights_table feats (S i0) n' scores'
          | None => None
          end
      | None => None
      end
  end.

Definition set_scores (weights : PreshMap) (scores : list weight_t)
    (feats : list FeatureC) (nr_feat : Z) : option (list weight_t) :=
  set_scores_from weights feats 0 (Z.to_nat nr_feat) scores.

(** The entries of a region before its first slot of negative key. *)
Fixpoint live_entries (v : SparseVec) : list SparseArrayC :=
  match v with
  | [] => []
  | cw :: rest => if 0 <=? key cw then cw :: live_entries rest else []
  end.

(** A zero-initialised score buffer of [n] classes. *)
Definition zero_scores (n : nat) : list weight_t := replicate n weight_zero.

Definition store_42 : PreshMap :=
  {[ 42 := Some [mkSparse 3 (weight_lit 3 (-1)); mkSparse 7 (weight_lit (-2) 0);
                 mkSparse (-1) weight_zero] ]}.

(** The value [2 * v] in binary32 arithmetic. *)
Definition weight_double (v : weight_t) : weight_t := weight_mul (weight_lit 2 0) v.
Arguments weight_double : simpl never.

(** A one-class store whose only weight is 1.5, and the smallest positive
    binary32 number, [2^-149]. *)
Definition store_tiny : PreshMap :=
  {[ 1 := Some [mkSparse 0 (weight_lit 3 (-1)); mkSparse (-1) weight_zero] ]}.
Definition weight_tiny : weight_t := weight_lit 1 (-149).

(** A store whose vector names class 0 twice, with the largest binary32
    number and its opposite. *)
Definition weight_max : weight_t := weight_lit (2 ^ 24 - 1) 104.
Definition store_repeated : PreshMap :=
  {[ 1 := Some [mkSparse 0 weight_max; mkSparse 0 (weight_lit (- (2 ^ 24 - 1)) 104);
                mkSparse (-1) weight_zero] ]}.

(** ** Exceptions *)

(** A Python exception raised by the code, or [Undefined] where the C code
    leaves the behaviour undefined (an access outside an allocation, a
    signed overflow). *)
Inductive exn := AssertionError | OverflowError | Undefined.

Inductive result (A : Type) : Type :=
  | Ok (a : A)
  | Raise (e : exn).
Arguments Ok {A} a.
Arguments Raise {A} e.

#[global] Instance result_bind : MBind result := fun A B k r =>
  match r with
  | Ok a => k a
  | Raise e => Raise e
  end.

(** ** Object representations

    [fwrite] and [fread] copy the bytes of a C object.  Integers are laid
    out in two's complement, least significant byte first (the byte order
    of the x86-64 and AArch64 targets), a weight as its binary32 bit
    pattern. *)

Definition byte_of_Z (z : Z) : byte :=
  match Byte.of_N (Z.to_N (z mod 256)) with
  | Some b => b
  | None => x00
  end.

Definition Z_of_byte (b : byte) : Z := Z.of_N (Byte.to_N b).

Fixpoint le_bytes (n : nat) (z : Z) : list byte :=
  match n with
  | O => []
  | S n' => byte_of_Z z :: le_bytes n' (z / 256)
  end.

Fixpoint le_value (bs : list byte) : Z :=
  match bs with
  | [] => 0
  | b :: rest => Z_of_byte b + 256 * le_value rest
  end.

Definition signed_value (bs : list byte) : Z :=
  let u := le_value bs in
  let w := 8 * Z.of_nat (length bs) in
  if u <? 2 ^ (w - 1) then u else u - 2 ^ w.

Definition in_int32 (z : Z) : bool := (- 2 ^ 31 <=? z) && (z <? 2 ^ 31).
Definition in_uint64 (z : Z) : bool := (0 <=? z) && (z <? 2 ^ 64).

Definition repr_feat_t (k : feat_t) : list byte := le_bytes sizeof_feat_t k.
Definition value_feat_t (bs : list byte) : feat_t := le_value bs.

Definition repr_int32 (z : Z) : list byte := le_bytes sizeof_int32_t z.
Definition value_int32 (bs : list byte) : Z := signed_value bs.

Definition sign_bit (s : bool) : Z := if s then 2 ^ 31 else 0.

(** The binary32 bit pattern: sign, eight bits of biased exponent,
    23 bits of fraction.  The only NaN of [spec_float] is the quiet NaN of
    zero payload. *)
Definition bits_of_weight (w : weight_t) : Z :=
  match w with
  | S754_zero s => sign_bit s
  | S754_infinity s => sign_bit s + 255 * 2 ^ 23
  | S754_nan => 255 * 2 ^ 23 + 2 ^ 22
  | S754_finite s m e =>
      if Z.pos m <? 2 ^ 23 then sign_bit s + Z.pos m
      else sign_bit s + (e + 150) * 2 ^ 23 + (Z.pos m - 2 ^ 23)
  end.

Definition weight_of_bits (x : Z) : weight_t :=
  let s := 2 ^ 31 <=? x in
  let ex := (x / 2 ^ 23) mod 256 in
  let frac := x mod 2 ^ 23 in
  if ex =? 0 then
    match frac with
    | Z.pos m => S754_finite s m (-149)
    | _ => S754_zero s
    end
  else if ex =? 255 then
    if frac =? 0 then S754_infinity s else S754_nan
  else
    match frac + 2 ^ 23 with
    | Z.pos m => S754_finite s m (ex - 150)
    | _ => S754_nan
    end.

Definition repr_weight_t (w : weight_t) : list byte :=
  le_bytes sizeof_weight_t (bits_of_weight w).
Definition value_weight_t (bs : list byte) : weight_t := weight_of_bits (le_value bs).

Arguments repr_feat_t : simpl never.
Arguments value_feat_t : simpl never.
Arguments repr_int32 : simpl never.
Arguments value_int32 : simpl never.
Arguments repr_weight_t : simpl never.
Arguments value_weight_t : simpl never.

(** ** Files *)

Inductive fmode := ReadBinary | WriteBinary.

(** An open stream: the path it was opened on, its mode, the bytes of the
    file, the position and the end-of-file indicator. *)
Record FILE := mkFILE {
  f_loc : string;
  f_mode : fmode;
  f_data : list byte;
  f_pos : nat;
  f_eof : bool
}.

Inductive node := Directory | Regular (content : list byte).

(** The file system, with the faults the C library can report: the paths
    on which [fopen] returns NULL whatever they name (permissions, a
    missing parent directory), and the status [fclose] reports (nonzero
    when the final flush fails). *)
Record OS := mkOS {
  os_fs : gmap string node;
  os_fopen_refused : gset string;
  os_fclose_status : Z
}.

Definition path_exists (os : OS) (loc : string) : bool :=
  match os_fs os !! loc with
  | Some _ => true
  | None => false
  end.

Definition path_isdir (os : OS) (loc : string) : bool :=
  match os_fs os !! loc with
  | Some Directory => true
  | _ => false
  end.

(** [fopen(loc, 'wb')] creates or truncates; [fopen(loc, 'rb')] needs an
    existing file.  [None] is the NULL stream. *)
Definition fopen (os : OS) (loc : string) (mode : fmode) : option FILE * OS :=
  if bool_decide (loc ∈ os_fopen_refused os) then (None, os)
  else
    match mode, os_fs os !! loc with
    | _, Some Directory => (None, os)
    | WriteBinary, _ =>
        (Some (mkFILE loc WriteBinary [] 0 false),
         mkOS (<[loc := Regular []]> (os_fs os)) (os_fopen_refused os) (os_fclose_status os))
    | ReadBinary, Some (Regular content) =>
        (Some (mkFILE loc ReadBinary content 0 false), os)
    | ReadBinary, None => (None, os)
    end.

(** [fseek(fp, 0, 0)]. *)
Definition fseek0 (fp : FILE) : FILE :=
  mkFILE (f_loc fp) (f_mode fp) (f_data fp) 0 false.

(** [fwrite(value, size, 1, fp)], [value] being the [size] bytes of the
    object: the status and the stream afterwards.  A stream opened for
    writing takes all the bytes: the file system of this model has no
    write fault (a full disk, a closed pipe). *)
Definition fwrite (value : list byte) (fp : FILE) : Z * FILE :=
  match f_mode fp with
  | WriteBinary =>
      (1, mkFILE (f_loc fp) WriteBinary
            (take (f_pos fp) (f_data fp) ++ value
               ++ drop (f_pos fp + length value) (f_data fp))
            (f_pos fp + length value) (f_eof fp))
  | ReadBinary => (0, fp)
  end.

(** [fread(dest, size, 1, fp)]: the status, the bytes stored into [dest]
    (all [size] of them, or the few the file still had) and the stream
    afterwards.  The end-of-file indicator is set by a read that finds the
    file too short, and by no other; once it is set, a read stores nothing
    and returns 0 (until [fseek] clears the indicator). *)
Definition fread (size : nat) (fp : FILE) : Z * list byte * FILE :=
  if f_eof fp then (0, [], fp)
  else
    let rest := drop (f_pos fp) (f_data fp) in
    if bool_decide (size <= length rest)%nat then
      (1, take size rest,
       mkFILE (f_loc fp) (f_mode fp) (f_data fp) (f_pos fp + size) (f_eof fp))
    else
      (0, rest,
       mkFILE (f_loc fp) (f_mode fp) (f_data fp) (length (f_data fp)) true).

Definition feof (fp : FILE) : bool := f_eof fp.

(** [fclose]: the status, and the file system with the written bytes. *)
Definition fclose (os : OS) (fp : FILE) : Z * OS :=
  if os_fclose_status os =? 0 then
    (0, match f_mode fp with
        | WriteBinary =>
            mkOS (<[f_loc fp := Regular (f_data fp)]> (os_fs os))
              (os_fopen_refused os) (os_fclose_status os)
        | ReadBinary => os
        end)
  else (os_fclose_status os, os).

(** ** _write *)

Definition _write (value : list byte) (fp : FILE) : result FILE :=
  let '(status, fp') := fwrite value fp in
  if status =? 1 then Ok fp' else Raise AssertionError.

(** ** qsort and SparseArray.cmp *)

(** thinc/sparse.pyx is not part of the sources: the comparator
    [SparseArray.cmp] that [write] hands to [qsort] is a parameter [cmp] of
    the writer, of which nothing is assumed.  The order in which [write]
    emits the slots of a vector is the one this function induces. *)

(** Modelled from the spec: thinc/sparse.pyx is not part of the sources.
    A three-way comparison of class ids, for the examples: negative, zero
    or positive as the first slot sorts before, with or after the second. *)
Definition SparseArray_cmp (a b : SparseArrayC) : Z :=
  match key a ?= key b with
  | Lt => -1
  | Eq => 0
  | Gt => 1
  end.

(** A comparator for the examples under which [qsort] has nothing to move:
    it answers 0, "equal", for every two slots. *)
Definition cmp_equal (a b : SparseArrayC) : Z := 0.

Fixpoint qsort_insert (cmp : SparseArrayC -> SparseArrayC -> Z) (x : SparseArrayC)
    (l : list SparseArrayC) : list SparseArrayC :=
  match l with
  | [] => [x]
  | y :: rest => if cmp x y <=? 0 then x :: l else y :: qsort_insert cmp x rest
  end.

(** [qsort] of the C library, which promises an arrangement of the array
    ordered by [cmp] and nothing about slots that compare equal; this is
    the arrangement an insertion sort produces. *)
Fixpoint qsort (cmp : SparseArrayC -> SparseArrayC -> Z) (l : list SparseArrayC)
    : list SparseArrayC :=
  match l with
  | [] => []
  | x :: rest => qsort_insert cmp x (qsort cmp rest)
  end.

(** ** _Writer *)

(** The scan [while feat[i].key >= 0: i += 1]; [None] when it runs off the
    region. *)
Fixpoint scan_length (feat : SparseVec) : option nat :=
  match feat with
  | [] => None
  | cw :: rest => if 0 <=? key cw then S <$> scan_length rest else Some O
  end.

Module _Writer.

Record t := mk { _fp : FILE; _nr_class : class_t }.

(** [self._nr_class = nr_class] converts a Python integer to [class_t] and
    raises [OverflowError] when it does not fit. *)
Definition __init__ (os : OS) (loc : string) (nr_class : Z) : result (t * OS) :=
  if path_exists os loc && path_isdir os loc then Raise AssertionError
  else
    match fopen os loc WriteBinary with
    | (None, _) => Raise AssertionError
    | (Some fp, os') =>
        let fp := fseek0 fp in
        if in_int32 nr_class then
          fp ← _write (repr_int32 nr_class) fp;
          Ok (mk fp nr_class, os')
        else Raise OverflowError
    end.

Definition close (self : t) (os : OS) : result OS :=
  let '(status, os') := fclose os (_fp self) in
  if status =? 0 then Ok os' else Raise AssertionError.

(** The loop [for i in range(length)] over the slots [feat[0..length)]. *)
Fixpoint write_entries (entries : list SparseArrayC) (fp : FILE) : result FILE :=
  match entries with
  | [] => Ok fp
  | cw :: rest =>
      fp ← _write (repr_int32 (key cw)) fp;
      fp ← _write (repr_weight_t (val cw)) fp;
      write_entries rest fp
  end.

Section Write.

Variable cmp : SparseArrayC -> SparseArrayC -> Z.

(** [write] returns its status, the writer and the region [feat] points
    to as [qsort] leaves it. *)
Definition write (self : t) (feat_id : feat_t) (feat : option SparseVec)
    : result (Z * t * option SparseVec) :=
  match feat with
  | None => Ok (0, self, None)
  | Some feat =>
      fp ← _write (repr_feat_t feat_id) (_fp self);
      match scan_length feat with
      | None => Raise Undefined
      | Some i =>
          if in_int32 (Z.of_nat i) then
            let length := i in
            fp ← _write (repr_int32 (Z.of_nat length)) fp;
            let feat := qsort cmp (take length feat) ++ drop length feat in
            fp ← write_entries (take length feat) fp;
            Ok (0, mk fp (_nr_class self), Some feat)
          else Raise Undefined
      end
  end.

End Write.

End _Writer.

(** ** _Reader *)

(** The bytes of an object after [fread] stored [read] into it. *)
Definition overlay (old read : list byte) : list byte :=
  read ++ drop (length read) old.

Module _Reader.

Record t := mk { _fp : FILE; _nr_class : class_t }.

(** The status of the [fread] of [_nr_class] is not checked: on a file
    shorter than a [class_t] the attribute, zero until then, keeps the bytes
    the read has not stored. *)
Definition __init__ (os : OS) (loc : string) : result (t * OS) :=
  if negb (path_exists os loc) then Raise AssertionError
  else if path_isdir os loc then Raise AssertionError
  else
    match fopen os loc ReadBinary with
    | (None, _) => Raise AssertionError
    | (Some fp, os') =>
        let fp := fseek0 fp in
        let '(status, bytes, fp) := fread sizeof_class_t fp in
        Ok (mk fp (value_int32 (overlay (repr_int32 0) bytes)), os')
    end.

(** The loop [for i in range(length)] filling [feat[0..length)]. *)
Fixpoint read_entries (length : nat) (fp : FILE)
    : result (list SparseArrayC * FILE) :=
  match length with
  | O => Ok ([], fp)
  | S length' =>
      let '(status, key_bytes, fp) := fread sizeof_int32_t fp in
      if status =? 0 then Raise AssertionError
      else
        let '(status, val_bytes, fp) := fread sizeof_weight_t fp in
        if status =? 0 then Raise AssertionError
        else
          '(rest, fp) ← read_entries length' fp;
          Ok (mkSparse (value_int32 key_bytes) (value_weight_t val_bytes) :: rest, fp)
  end.

(** [read] returns its status, what it stored through [out_id] and
    [out_feat] (if anything) and the reader.  [PyMem_Malloc] is taken to
    succeed, and [length + 1] not to overflow. *)
Definition read (self : t) : result (Z * option (feat_t * SparseVec) * t) :=
  let '(status, id_bytes, fp) := fread sizeof_feat_t (_fp self) in
  if status =? 0 then Ok (0, None, mk fp (_nr_class self))
  else
    let feat_id := value_feat_t id_bytes in
    let '(status, length_bytes, fp) := fread sizeof_int32_t fp in
    if status =? 0 then Raise AssertionError
    else
      let length := value_int32 length_bytes in
      if length <? 0 then Raise Undefined
      else
        '(entries, fp) ← read_entries (Z.to_nat length) fp;
        let feat := entries ++ [mkSparse (-2) weight_zero] in
        Ok (if feof fp then 0 else 1, Some (feat_id, feat), mk fp (_nr_class self)).

(** [__dealloc__] is [fclose(self._fp)], whose status it does not look at.
    Closing a stream that was opened for reading changes no file.  [None]
    is the NULL that [_fp] still holds when [__init__] has raised, all its
    assertions coming before [_fp] is set or finding it NULL; [fclose(NULL)]
    is undefined. *)
Definition __dealloc__ (fp : option FILE) : result unit :=
  match fp with
  | Some _ => Ok tt
  | None => Raise Undefined
  end.

End _Reader.

(** ** LinearModel.dump and LinearModel.load *)

Section Dump.

Variable cmp : SparseArrayC -> SparseArrayC -> Z.

(** The loop of [dump] over [self.weights.items()]. *)
Fixpoint dump_loop (items : list (feat_t * option SparseVec)) (writer : _Writer.t)
    (weights : PreshMap) : result (_Writer.t * PreshMap) :=
  match items with
  | [] => Ok (writer, weights)
  | (k, feat_addr) :: rest =>
      match feat_addr with
      | Some _ =>
          '(_, writer, feat) ← _Writer.write cmp writer k feat_addr;
          dump_loop rest writer (<[k := feat]> weights)
      | None => dump_loop rest writer weights
      end
  end.

(** [dump] returns the table (whose vectors [qsort] has rearranged in
    place) and the file system.  The table is enumerated in the order of
    [map_to_list], one of the orders a hash table may have. *)
Definition dump (weights : PreshMap) (os : OS) (nr_class : Z) (loc : string)
    : result (PreshMap * OS) :=
  '(writer, os) ← _Writer.__init__ os loc nr_class;
  '(writer, weights) ← dump_loop (map_to_list weights) writer weights;
  os ← _Writer.close writer os;
  Ok (weights, os).

End Dump.

(** The loop [while reader.read(...): self.weights.set(feat_id, feature)],
    at most [fuel] iterations; [None] when they do not suffice.  The table
    is updated in place: the loop ends, normally or with an exception, with
    the table as the iterations before have left it. *)
Fixpoint load_loop (fuel : nat) (reader : _Reader.t) (weights : PreshMap)
    : option (result unit * PreshMap) :=
  match fuel with
  | O => None
  | S fuel' =>
      match _Reader.read reader with
      | Raise e => Some (Raise e, weights)
      | Ok (status, out, reader') =>
          if status =? 0 then Some (Ok tt, weights)
          else
            match out with
            | Some (feat_id, feature) =>
                load_loop fuel' reader' (<[feat_id := Some feature]> weights)
            | None => Some (Raise Undefined, weights)
            end
      end
  end.

(** Every iteration but the last consumes at least one byte, so one more
    iteration than the file has bytes is enough. *)
Definition load_fuel (reader : _Reader.t) : nat :=
  S (length (f_data (_Reader._fp reader))).

(** [load]: how the call ends (with the class count and the file system,
    or with an exception) and [self.weights] as the call leaves it in either
    case.  The reader is freed when the call ends, and at once when its
    [__init__] has raised. *)
Definition load_in_place (weights : PreshMap) (os : OS) (loc : string)
    : result (Z * OS) * PreshMap :=
  match _Reader.__init__ os loc with
  | Raise e => ((_ ← _Reader.__dealloc__ None; Raise e), weights)
  | Ok (reader, os) =>
      match load_loop (load_fuel reader) reader weights with
      | Some (r, weights) =>
          ((_ ← r;
            _ ← _Reader.__dealloc__ (Some (_Reader._fp reader));
            Ok (_Reader._nr_class reader, os)),
           weights)
      | None => (Raise Undefined, weights)
      end
  end.

(** [load] for a caller that has no use for the table after an exception:
    the class count, the table and the file system. *)
Definition load (weights : PreshMap) (os : OS) (loc : string)
    : result (Z * PreshMap * OS) :=
  match load_in_place weights os loc with
  | (Ok (nr_class, os), weights) => Ok (nr_class, weights, os)
  | (Raise e, _) => Raise e
  end.

(** ** MultiLayerPerceptron.backprop *)

(** Modelled from the spec: thinc/structs.pxd is not part of the sources.
    Of [ExampleC], the buffers [backprop] touches: the scores, the target
    distribution, one delta and one signal buffer per layer, the gradient
    accumulators (weights and bias) per layer, and the class count. *)
Record GradientC := mkGradient {
  grad_W : list (list weight_t);
  grad_b : list weight_t
}.

Record ExampleC := mkExample {
  eg_scores : list weight_t;
  eg_target : list weight_t;
  eg_deltas : list (list weight_t);
  eg_signal : list (list weight_t);
  eg_grad : list GradientC;
  eg_nr_class : Z
}.

(** [memcpy(dest, src, n * sizeof(src[0]))]; [None] when either buffer has
    fewer than [n] elements. *)
Definition memcpy (dest src : list weight_t) (n : Z) : option (list weight_t) :=
  if bool_decide (0 <= n <= Z.of_nat (length dest) /\ n <= Z.of_nat (length src)) then
    Some (take (Z.to_nat n) src ++ drop (Z.to_nat n) dest)
  else None.

(** Modelled from the spec: thinc/matrix.pyx is not part of the sources.
    [Matrix.isubC(a, b)] subtracts [b] from [a] in place, element by
    element ("the terminal delta equals scores - target"). *)
Definition Matrix_isubC (a b : list weight_t) : list weight_t :=
  zip_with weight_sub a b ++ drop (length b) a.

(** The first two statements of [backprop], which set [deltas[depth]]. *)
Definition backprop_terminal (depth : nat) (eg : ExampleC) : option ExampleC :=
  dest ← eg_deltas eg !! depth;
  copied ← memcpy dest (eg_scores eg) (eg_nr_class eg);
  Some (mkExample (eg_scores eg) (eg_target eg)
          (<[depth := Matrix_isubC copied (eg_target eg)]> (eg_deltas eg))
          (eg_signal eg) (eg_grad eg) (eg_nr_class eg)).

Section Backprop.

(** The layers, and the operations of [Matrix] and of a layer that the
    loop of [backprop] calls; thinc/matrix.pyx and the layer structure are
    not part of the sources. *)
Context {LayerC : Type}.
Variable Matrix_iaddC : list weight_t -> list weight_t -> weight_t -> list weight_t.
Variable Matrix_iadd_outerC :
  list (list weight_t) -> list weight_t -> list weight_t -> list (list weight_t).
Variable d_activate : list weight_t -> LayerC -> list weight_t -> list weight_t.

(** The body of [for i in range(self.depth, -1, -1)].  The callees are
    given the contents of the buffers whose addresses the source passes,
    and their result is stored in the first of them; [&eg.delta[i-1]] of
    the last call is read as the delta buffer of the layer below. *)
Definition backprop_layer (layers : list LayerC) (i : nat) (eg : ExampleC)
    : option ExampleC :=
  g ← eg_grad eg !! i;
  delta ← eg_deltas eg !! i;
  signal ← eg_signal eg !! i;
  let b := Matrix_iaddC (grad_b g) delta (weight_lit 1 0) in
  let W := Matrix_iadd_outerC (grad_W g) delta signal in
  let grad := <[i := mkGradient W b]> (eg_grad eg) in
  match i with
  | S j =>
      layer ← layers !! i;
      below ← eg_deltas eg !! j;
      Some (mkExample (eg_scores eg) (eg_target eg)
              (<[j := d_activate below layer signal]> (eg_deltas eg))
              (eg_signal eg) grad (eg_nr_class eg))
  | O =>
      Some (mkExample (eg_scores eg) (eg_target eg) (eg_deltas eg)
              (eg_signal eg) grad (eg_nr_class eg))
  end.

(** The iterations [i = n, n - 1, ..., 0]. *)
Fixpoint backprop_layers (layers : list LayerC) (n : nat) (eg : ExampleC)
    : option ExampleC :=
  eg ← backprop_layer layers n eg;
  match n with
  | O => Some eg
  | S n' => backprop_layers layers n' eg
  end.

Definition backprop (depth : nat) (layers : list LayerC) (eg : ExampleC)
    : option ExampleC :=
  eg ← backprop_terminal depth eg;
  backprop_layers layers depth eg.

End Backprop.

(** An example with one layer above the input and three classes. *)
Definition example_eg : ExampleC :=
  mkExample [weight_lit 1 (-1); weight_lit 1 (-2); weight_lit 1 (-2)]
    [weight_zero; weight_lit 1 0; weight_zero]
    [[weight_zero; weight_zero]; [weight_lit 7 0; weight_lit 7 0; weight_lit 7 0]]
    [[weight_zero; weight_zero]; [weight_zero; weight_zero; weight_zero]]
    [mkGradient [] []; mkGradient [] []]
    3.

(** ** The file format and the state of a stream *)

(** The bytes [write] emits for the slots of one vector, and for one
    record: the feature key, the 32-bit length, the slots. *)
Definition encode_entry (cw : SparseArrayC) : list byte :=
  repr_int32 (key cw) ++ repr_weight_t (val cw).

Definition encode_entries (entries : list SparseArrayC) : list byte :=
  concat (encode_entry <$> entries).

Definition encode_record (record : feat_t * list SparseArrayC) : list byte :=
  repr_feat_t record.1 ++ repr_int32 (Z.of_nat (length record.2))
    ++ encode_entries record.2.

(** The bytes a stream can still deliver: those after its position, and
    none once its end-of-file indicator is set; the stream [size] bytes
    further; a stream with [value] written at its end. *)
Definition remaining (fp : FILE) : list byte :=
  if f_eof fp then [] else drop (f_pos fp) (f_data fp).

Definition advance (size : nat) (fp : FILE) : FILE :=
  mkFILE (f_loc fp) (f_mode fp) (f_data fp) (f_pos fp + size) (f_eof fp).

Definition append (value : list byte) (fp : FILE) : FILE :=
  mkFILE (f_loc fp) WriteBinary (f_data fp ++ value)
    (length (f_data fp ++ value)) (f_eof fp).

(** A stream opened for writing and positioned at its end. *)
Definition at_end (fp : FILE) : Prop :=
  f_mode fp = WriteBinary /\ f_pos fp = length (f_data fp).

(** A slot whose class id is an [int32_t] and whose weight is a binary32
    number; a region that is terminated, by a slot of negative class id,
    after fewer than [2^31] such slots. *)
Definition entry_ok (cw : SparseArrayC) : bool :=
  in_int32 (key cw) && valid_binary prec emax (val cw).

Definition vec_ok (feat : SparseVec) : bool :=
  match scan_length feat with
  | Some i => in_int32 (Z.of_nat i) && forallb entry_ok (live_entries feat)
  | None => false
  end.

(** A table whose keys are [uint64_t] and whose vectors are such regions
    (or null). *)
Definition store_ok (weights : PreshMap) : bool :=
  forallb (fun item : feat_t * option SparseVec =>
             in_uint64 item.1 && from_option vec_ok true item.2)
    (map_to_list weights).


(** The slot that [read] stores after the last one it has read. *)
Definition capacity_sentinel : SparseArrayC := mkSparse (-2) weight_zero.

(** The records [dump] writes for the items of a table: one for each item
    whose vector is not null, the slots in the order [qsort] gives them. *)
Definition sorted_records (cmp : SparseArrayC -> SparseArrayC -> Z)
    (items : list (feat_t * option SparseVec)) : list (feat_t * list SparseArrayC) :=
  omap (fun item : feat_t * option SparseVec =>
          (fun feat => (item.1, qsort cmp (live_entries feat))) <$> item.2)
    items.

(** What the loop of [load] does with one record. *)
Definition insert_record (weights : PreshMap) (record : feat_t * list SparseArrayC)
    : PreshMap :=
  <[record.1 := Some (record.2 ++ [capacity_sentinel])]> weights.

Definition record_ok (record : feat_t * list SparseArrayC) : bool :=
  in_uint64 record.1 && in_int32 (Z.of_nat (length record.2))
    && forallb entry_ok record.2.

(** A table and a file system for examples: an unsorted vector with slots
    after its terminator, a null entry and an empty vector; no file. *)
Definition store_example : PreshMap :=
  {[ 42 := Some [mkSparse 7 (weight_lit (-2) 0); mkSparse 3 (weight_lit 3 (-1));
                 mkSparse (-1) weight_zero; mkSparse 9 weight_zero];
     5 := None;
     6 := Some [mkSparse (-1) weight_zero] ]}.

Definition os_example : OS := mkOS ∅ ∅ 0.


Definition record_42 : feat_t * list SparseArrayC :=
  (42, [mkSparse 3 (weight_lit 3 (-1)); mkSparse 7 (weight_lit (-2) 0)]).

Definition reader_example : _Reader.t :=
  _Reader.mk (mkFILE "model" ReadBinary (repr_int32 10 ++ encode_record record_42) 4 false) 10.


(** ** What a score accumulates *)

(** The products that scoring one feature of value [v] adds to the score of
    class [c], in the order of the slots of its vector. *)
Definition slot_contributions (entries : list SparseArrayC) (v : weight_t) (c : nat)
    : list weight_t :=
  (fun cw => weight_mul (val cw) v)
    <$> filter (fun cw => key cw = Z.of_nat c) entries.

(** The products that scoring a list of features adds to the score of
    class [c], feature after feature. *)
Definition contributions (weights : PreshMap) (feats : list FeatureC) (c : nat)
    : list weight_t :=
  concat ((fun feat : FeatureC =>
             match map_get weights (feat_key feat) with
             | Some class_weights =>
                 slot_contributions (live_entries class_weights) (feat_val feat) c
             | None => []
             end) <$> feats).

(** Two tables that hold, for every key, terminated vectors with the same
    slots of distinct class ids before the terminator, in any order, or no
    vector at all. *)
Definition same_live (w1 w2 : PreshMap) : Prop :=
  forall k,
    match map_get w1 k, map_get w2 k with
    | Some v1, Some v2 =>
        is_Some (scan_length v1) /\ is_Some (scan_length v2)
        /\ live_entries v1 ≡ₚ live_entries v2
        /\ NoDup (key <$> live_entries v1)
    | None, None => True
    | _, _ => False
    end.

(** The region of a vector as [write] leaves it: the slots before the
    terminator in the order [qsort] gives them, the rest untouched. *)
Definition sorted_in_place (cmp : SparseArrayC -> SparseArrayC -> Z) (feat : SparseVec)
    : SparseVec :=
  qsort cmp (live_entries feat) ++ drop (length (live_entries feat)) feat.

(** What one iteration of the loop of [dump] does to the table. *)
Definition sort_item (cmp : SparseArrayC -> SparseArrayC -> Z) (weights : PreshMap)
    (item : feat_t * option SparseVec) : PreshMap :=
  match item.2 with
  | Some feat => <[item.1 := Some (sorted_in_place cmp feat)]> weights
  | None => weights
  end.

(** File systems for examples: a file with the record of feature 42, a
    record without slots for feature 7 and two stray bytes; and a file with
    the record of feature 7 and the first 21 bytes of that of feature 42. *)
Definition os_stray : OS :=
  mkOS {[ "model"%string :=
            Regular (repr_int32 10 ++ concat (encode_record <$> [record_42; (7, [])])
                       ++ [x01; x02]) ]} ∅ 0.

Definition os_truncated : OS :=
  mkOS {[ "model"%string :=
            Regular (repr_int32 10 ++ concat (encode_record <$> [(7, [])])
                       ++ take 21 (encode_record record_42)) ]} ∅ 0.

(** Operations for examples of [backprop]: a bias update that adds the
    delta, an outer-product update that appends the delta as a row, and an
    activation derivative that masks the buffer below by the signal; and
    what [backprop] with them makes of [example_eg]. *)
Definition example_iaddC (a b : list weight_t) (scale : weight_t) : list weight_t :=
  zip_with (fun x y => weight_add x (weight_mul y scale)) a b.

Definition example_iadd_outerC (W : list (list weight_t)) (delta signal : list weight_t)
    : list (list weight_t) :=
  W ++ [delta].

Definition example_d_activate (below : list weight_t) (l : unit) (signal : list weight_t)
    : list weight_t :=
  zip_with weight_mul below signal.

Definition example_eg_after : ExampleC :=
  mkExample (eg_scores example_eg) (eg_target example_eg)
    [[weight_zero; weight_zero];
     [weight_lit 1 (-1); weight_lit (-3) (-2); weight_lit 1 (-2)]]
    (eg_signal example_eg)
    [mkGradient [[weight_zero; weight_zero]] [];
     mkGradient [[weight_lit 1 (-1); weight_lit (-3) (-2); weight_lit 1 (-2)]] []]
    3.

(** * Properties of the scorer *)

Section Scoring.
Implicit Types (weights : PreshMap) (scores : list weight_t)
  (feats : list FeatureC) (class_weights : SparseVec).

Lemma live_entries_key class_weights cw :
  cw ∈ live_entries class_weights -> 0 <= key cw.
Proof.
  induction class_weights as [|e rest IH]; simpl; [by intros ?%elem_of_nil|].
  destruct (0 <=? key e) eqn:He; [|by intros ?%elem_of_nil].
  intros [->|?]%elem_of_cons; [lia | auto].
Qed.

Lemma add_class_weights_length class_weights v scores scores' :
  add_class_weights class_weights v scores = Some scores' ->
  length scores' = length scores.
Proof.
  revert scores.
  induction class_weights as [|e rest IH]; intros scores; simpl; [done|].
  destruct (0 <=? key e); [|by intros [= ->]].
  destruct (scores !! Z.to_nat (key e)); [|done].
  intros H%IH. by rewrite H, length_insert.
Qed.

Lemma add_class_weights_frame class_weights v scores scores' (c : nat) :
  add_class_weights class_weights v scores = Some scores' ->
  (forall cw, cw ∈ live_entries class_weights -> key cw <> Z.of_nat c) ->
  scores' !! c = scores !! c.
Proof.
  revert scores.
  induction class_weights as [|e rest IH]; intros scores; simpl; [done|].
  destruct (0 <=? key e) eqn:He; [|by intros [= ->]].
  destruct (scores !! Z.to_nat (key e)); [|done].
  intros Hrun Hc. rewrite (IH _ Hrun).
  - apply list_lookup_insert_ne.
    specialize (Hc e (list_elem_of_here _ _)). lia.
  - intros cw Hcw. apply Hc. by apply list_elem_of_further.
Qed.

Lemma set_scores_from_absent weights feats i0 n scores :
  (forall j feat, (i0 <= j < i0 + n)%nat -> feats !! j = Some feat ->
     map_get weights (feat_key feat) = None) ->
  (i0 + n <= length feats)%nat ->
  set_scores_from weights feats i0 n scores = Some scores.
Proof.
  revert i0. induction n as [|n IH]; intros i0 Habs Hlen; simpl; [done|].
  destruct (lookup_lt_is_Some_2 feats i0) as [feat Hfeat]; [lia|].
  rewrite Hfeat. unfold score_feature.
  rewrite (Habs i0 feat) by (done || lia).
  apply IH; [|lia]. intros j f ? ?. apply (Habs j); [lia | done].
Qed.

Lemma set_scores_from_frame weights feats i0 n scores scores' (c : nat) :
  set_scores_from weights feats i0 n scores = Some scores' ->
  (forall j feat class_weights cw, (i0 <= j < i0 + n)%nat ->
     feats !! j = Some feat ->
     map_get weights (feat_key feat) = Some class_weights ->
     cw ∈ live_entries class_weights -> key cw <> Z.of_nat c) ->
  scores' !! c = scores !! c /\ length scores' = length scores.
Proof.
  revert i0 scores. induction n as [|n IH]; intros i0 scores; simpl.
  { by intros [= ->]. }
  destruct (feats !! i0) as [feat|] eqn:Hfeat; [|done].
  unfold score_feature.
  destruct (map_get weights (feat_key feat)) as [class_weights|] eqn:Hget.
  - destruct (add_class_weights _ _ _) as [mid|] eqn:Hmid; [|done].
    intros Hrun Hc.
    destruct (IH _ _ Hrun) as [-> ->].
    { intros j f cws cw ?. apply Hc. lia. }
    split.
    + eapply add_class_weights_frame; [done|].
      intros cw. apply (Hc i0 feat class_weights); [lia | done | done].
    + by eapply add_class_weights_length.
  - intros Hrun Hc. apply (IH _ _ Hrun).
    intros j f cws cw ?. apply Hc. lia.
Qed.

Lemma weight_double_zero : weight_double weight_zero = weight_zero.
Proof. reflexivity. Qed.

Lemma add_class_weights_double class_weights v scores :
  NoDup (key <$> live_entries class_weights) ->
  (forall cw x, cw ∈ live_entries class_weights ->
     scores !! Z.to_nat (key cw) = Some x -> x = weight_zero) ->
  (forall cw, cw ∈ live_entries class_weights ->
     weight_add weight_zero (weight_mul (val cw) (weight_double v))
     = weight_double (weight_add weight_zero (weight_mul (val cw) v))) ->
  add_class_weights class_weights (weight_double v) (weight_double <$> scores)
  = fmap (M:=list) weight_double <$> add_class_weights class_weights v scores.
Proof.
  revert scores.
  induction class_weights as [|e rest IH]; intros scores; simpl; [done|].
  destruct (0 <=? key e) eqn:He; [|done].
  rewrite fmap_cons. intros [Hnotin Hnodup]%NoDup_cons Hzero Hexact.
  rewrite list_lookup_fmap.
  destruct (scores !! Z.to_nat (key e)) as [s|] eqn:Hs; simpl; [|done].
  rewrite (Hzero e s) by (done || apply list_elem_of_here).
  rewrite weight_double_zero, Hexact by apply list_elem_of_here.
  rewrite <- list_fmap_insert. apply IH; [done| |].
  - intros cw x Hcw. rewrite list_lookup_insert_ne.
    + apply Hzero. by apply list_elem_of_further.
    + intros Heq. apply Hnotin.
      assert (key e = key cw) as ->.
      { apply live_entries_key in Hcw. lia. }
      by apply list_elem_of_fmap_2.
  - intros cw Hcw. apply Hexact. by apply list_elem_of_further.
Qed.

End Scoring.

(** C2.  With the store [{42: [(3, 1.5), (7, -2.0)]}] and a zeroed buffer of
    ten classes, scoring the single feature (key 42, value 2.0) leaves 3.0
    at index 3, -4.0 at index 7 and 0.0 at every other index. *)
Theorem set_scores_concrete_scenario :
  set_scores store_42 (zero_scores 10) [mkFeature 42 (weight_lit 2 0)] 1
  = Some [weight_zero; weight_zero; weight_zero; weight_lit 3 0; weight_zero;
          weight_zero; weight_zero; weight_lit (-4) 0; weight_zero; weight_zero].
Proof. vm_compute. reflexivity. Qed.

(** C3.  When no key of the supplied features has a vector in the store,
    [set_scores] returns normally and every element of the score buffer
    keeps its initial value (in particular a zeroed buffer stays zero). *)
Theorem set_scores_absent_features weights scores feats nr_feat :
  nr_feat <= Z.of_nat (length feats) ->
  Forall (fun feat => map_get weights (feat_key feat) = None) feats ->
  set_scores weights scores feats nr_feat = Some scores.
Proof.
  intros Hnr Habs. unfold set_scores.
  apply set_scores_from_absent; [|lia].
  intros j feat _ Hj. rewrite Forall_forall in Habs.
  apply Habs, list_elem_of_lookup. eauto.
Qed.

Lemma set_scores_absent_features_witness :
  set_scores store_42 (zero_scores 10)
    [mkFeature 7 (weight_lit 2 0); mkFeature 41 (weight_lit 3 0)] 2
  = Some (zero_scores 10).
Proof.
  apply set_scores_absent_features.
  - simpl. lia.
  - repeat constructor.
Defined.

(** C10.  Whatever the buffer holds on entry, [set_scores] leaves the
    element at class index [c] unchanged unless [c] is a class id of the
    vector of one of the supplied features; the buffer keeps its length. *)
Theorem set_scores_frame weights scores feats nr_feat scores' (c : nat) :
  set_scores weights scores feats nr_feat = Some scores' ->
  (forall (j : nat) feat class_weights cw,
     Z.of_nat j < nr_feat -> feats !! j = Some feat ->
     map_get weights (feat_key feat) = Some class_weights ->
     cw ∈ live_entries class_weights -> key cw <> Z.of_nat c) ->
  scores' !! c = scores !! c /\ length scores' = length scores.
Proof.
  unfold set_scores. intros Hrun Hc.
  apply (set_scores_from_frame _ _ _ _ _ _ _ Hrun).
  intros j feat cws cw ?. apply Hc. lia.
Qed.

Lemma set_scores_frame_witness :
  let scores := [weight_lit 1 0; weight_lit 5 0; weight_lit 3 0; weight_lit 1 0;
                 weight_lit 7 0; weight_lit 9 0; weight_lit 1 0; weight_lit 6 0;
                 weight_lit 2 0; weight_lit 8 0] in
  let scores' := [weight_lit 1 0; weight_lit 5 0; weight_lit 3 0; weight_lit 4 0;
                  weight_lit 7 0; weight_lit 9 0; weight_lit 1 0; weight_lit 2 0;
                  weight_lit 2 0; weight_lit 8 0] in
  scores' !! 5%nat = scores !! 5%nat /\ length scores' = length scores.
Proof.
  intros scores scores'.
  apply (set_scores_frame store_42 scores [mkFeature 42 (weight_lit 2 0)] 1 scores' 5).
  - vm_compute. reflexivity.
  - intros j feat class_weights cw Hj Hfeat Hget Hcw.
    destruct j as [|j]; [|lia].
    injection Hfeat as <-. vm_compute in Hget. injection Hget as <-.
    simpl in Hcw.
    apply elem_of_cons in Hcw as [->|Hcw]; [simpl; lia|].
    apply elem_of_cons in Hcw as [->|Hcw]; [simpl; lia|].
    by apply elem_of_nil in Hcw.
Defined.

(** C4 as stated fails in binary32 arithmetic: with the single weight 1.5
    and the value [2^-149], the product 1.5 * 2^-149 rounds to 2 * 2^-149,
    whose double is 4 * 2^-149, while 1.5 * (2 * 2^-149) is exactly
    3 * 2^-149. *)
Lemma doubling_counterexample :
  set_scores store_tiny (zero_scores 1) [mkFeature 1 weight_tiny] 1
    = Some [S754_finite false 2 (-149)]
  /\ set_scores store_tiny (zero_scores 1) [mkFeature 1 (weight_double weight_tiny)] 1
    = Some [S754_finite false 3 (-149)]
  /\ weight_double (S754_finite false 2 (-149)) = S754_finite false 4 (-149)
  /\ set_scores store_tiny (zero_scores 1) [mkFeature 1 (weight_double weight_tiny)] 1
     <> fmap (M:=list) weight_double
          <$> set_scores store_tiny (zero_scores 1) [mkFeature 1 weight_tiny] 1.
Proof.
  repeat split; try (vm_compute; reflexivity).
  vm_compute. discriminate.
Qed.

(** C4, amended.  When the class ids of the vector of [k] are distinct and
    each of its weights [w] satisfies [0 + w * (2v) = 2 * (0 + w * v)] in
    binary32 arithmetic, scoring the single feature [(k, 2v)] into a zeroed
    buffer gives at every class index the double of what scoring [(k, v)]
    gives (and is undefined exactly when scoring [(k, v)] is). *)
Theorem set_scores_double weights k v (n : nat) :
  (forall class_weights, map_get weights k = Some class_weights ->
     NoDup (key <$> live_entries class_weights) /\
     forall cw, cw ∈ live_entries class_weights ->
       weight_add weight_zero (weight_mul (val cw) (weight_double v))
       = weight_double (weight_add weight_zero (weight_mul (val cw) v))) ->
  set_scores weights (zero_scores n) [mkFeature k (weight_double v)] 1
  = fmap (M:=list) weight_double
      <$> set_scores weights (zero_scores n) [mkFeature k v] 1.
Proof.
  intros Hvec. unfold set_scores. simpl. unfold score_feature. simpl.
  assert (Hz : weight_double <$> zero_scores n = zero_scores n).
  { unfold zero_scores. by rewrite fmap_replicate, weight_double_zero. }
  destruct (map_get weights k) as [class_weights|] eqn:Hget; simpl.
  - destruct (Hvec _ eq_refl) as [Hnodup Hexact].
    rewrite <- Hz at 1.
    rewrite add_class_weights_double; [|done| |done].
    + by destruct (add_class_weights class_weights v (zero_scores n)).
    + intros cw x _ [-> _]%lookup_replicate. done.
  - by rewrite Hz.
Qed.

(** Distinct class ids are needed: when a class id occurs twice the sums
    can differ although every product doubles.  With the weights [max] and
    [-max] on class 0 and the value 1.0 the score is [max - max = 0], while
    for the value 2.0 it is [inf - inf], not a number. *)
Example doubling_fails_with_repeated_class_id :
  (forall cw, cw ∈ live_entries [mkSparse 0 weight_max;
                                  mkSparse 0 (weight_lit (- (2 ^ 24 - 1)) 104);
                                  mkSparse (-1) weight_zero] ->
     weight_add weight_zero (weight_mul (val cw) (weight_double (weight_lit 1 0)))
     = weight_double (weight_add weight_zero (weight_mul (val cw) (weight_lit 1 0))))
  /\ set_scores store_repeated (zero_scores 1) [mkFeature 1 (weight_lit 1 0)] 1
     = Some [weight_zero]
  /\ set_scores store_repeated (zero_scores 1)
       [mkFeature 1 (weight_double (weight_lit 1 0))] 1
     = Some [S754_nan].
Proof.
  split; [|split; vm_compute; reflexivity].
  intros cw Hcw. simpl in Hcw.
  apply elem_of_cons in Hcw as [->|Hcw]; [vm_compute; reflexivity|].
  apply elem_of_cons in Hcw as [->|Hcw]; [vm_compute; reflexivity|].
  by apply elem_of_nil in Hcw.
Qed.

Lemma set_scores_double_witness :
  set_scores store_42 (zero_scores 10) [mkFeature 42 (weight_double (weight_lit 2 0))] 1
  = fmap (M:=list) weight_double
      <$> set_scores store_42 (zero_scores 10) [mkFeature 42 (weight_lit 2 0)] 1.
Proof.
  apply (set_scores_double store_42 42 (weight_lit 2 0) 10).
  intros class_weights Hget. vm_compute in Hget. injection Hget as <-.
  split.
  - simpl. repeat constructor; rewrite ?elem_of_cons, ?elem_of_nil; lia.
  - intros cw Hcw. simpl in Hcw.
    apply elem_of_cons in Hcw as [->|Hcw]; [vm_compute; reflexivity|].
    apply elem_of_cons in Hcw as [->|Hcw]; [vm_compute; reflexivity|].
    by apply elem_of_nil in Hcw.
Defined.

(** * Object representations are read back as written *)

Section Representations.

Lemma Z_of_byte_range b : 0 <= Z_of_byte b < 256.
Proof. unfold Z_of_byte. pose proof (Byte.to_N_bounded b). lia. Qed.

Lemma Z_of_byte_of_Z z : Z_of_byte (byte_of_Z z) = z mod 256.
Proof.
  unfold Z_of_byte, byte_of_Z.
  pose proof (Z.mod_pos_bound z 256 ltac:(lia)).
  destruct (Byte.of_N (Z.to_N (z mod 256))) eqn:E.
  - apply Byte.to_of_N in E. rewrite E. lia.
  - apply Byte.of_N_None_iff in E. lia.
Qed.

Lemma length_le_bytes n z : length (le_bytes n z) = n.
Proof. revert z. induction n as [|n IH]; intros z; simpl; [done|]. by rewrite IH. Qed.

Lemma le_value_le_bytes n z : le_value (le_bytes n z) = z mod 256 ^ Z.of_nat n.
Proof.
  revert z. induction n as [|n IH]; intros z.
  - simpl. by rewrite Z.mod_1_r.
  - cbn [le_bytes le_value]. rewrite Z_of_byte_of_Z, IH.
    rewrite Nat2Z.inj_succ, Z.pow_succ_r by lia.
    rewrite Z.rem_mul_r; [done | lia | apply Z.pow_pos_nonneg; lia].
Qed.

Lemma value_repr_feat_t k : in_uint64 k = true -> value_feat_t (repr_feat_t k) = k.
Proof.
  unfold in_uint64, value_feat_t, repr_feat_t, sizeof_feat_t.
  intros [?%Z.leb_le ?%Z.ltb_lt]%andb_true_iff.
  rewrite le_value_le_bytes. apply Z.mod_small.
  change (256 ^ Z.of_nat 8) with (2 ^ 64). lia.
Qed.

Lemma value_repr_int32 z : in_int32 z = true -> value_int32 (repr_int32 z) = z.
Proof.
  unfold in_int32, value_int32, repr_int32, signed_value, sizeof_int32_t.
  intros [?%Z.leb_le ?%Z.ltb_lt]%andb_true_iff.
  rewrite le_value_le_bytes, length_le_bytes.
  change (256 ^ Z.of_nat 4) with 4294967296.
  change (2 ^ (8 * Z.of_nat 4 - 1)) with 2147483648.
  change (2 ^ (8 * Z.of_nat 4)) with 4294967296.
  change (2 ^ 31) with 2147483648 in *.
  destruct (Z.ltb_spec (z mod 4294967296) 2147483648);
    Z.div_mod_to_equations; lia.
Qed.

Lemma digits2_pos_bounds m :
  2 ^ (Z.pos (digits2_pos m) - 1) <= Z.pos m < 2 ^ Z.pos (digits2_pos m).
Proof.
  induction m as [m IH|m IH|]; cbn [digits2_pos]; [| |simpl; lia].
  all: rewrite Pos2Z.inj_succ, Z.pow_succ_r by lia.
  all: replace (Z.succ (Z.pos (digits2_pos m)) - 1)
         with (Z.succ (Z.pos (digits2_pos m) - 1)) by lia.
  all: rewrite Z.pow_succ_r by lia; lia.
Qed.

(** A valid binary32 number is subnormal, with exponent -149 and a
    mantissa below [2^23], or normal, with a mantissa of 24 bits. *)
Lemma valid_binary_finite s m e :
  valid_binary prec emax (S754_finite s m e) = true ->
  -149 <= e <= 104 /\ Z.pos m < 2 ^ 24 /\ (Z.pos m < 2 ^ 23 -> e = -149).
Proof.
  unfold valid_binary, bounded, canonical_mantissa, fexp, SpecFloat.emin, prec, emax.
  intros [Hc%Z.eqb_eq Hb%Z.leb_le]%andb_true_iff.
  pose proof (digits2_pos_bounds m) as [Hlo Hhi].
  set (d := Z.pos (digits2_pos m)) in *.
  destruct (Z.max_spec (d + e - 24) (3 - 128 - 24)) as [[Hlt Heq]|[Hge Heq]];
    rewrite Heq in Hc.
  - assert (d <= 24) by lia.
    assert (2 ^ d <= 2 ^ 24) by (apply Z.pow_le_mono_r; lia).
    split; [lia|]. split; [lia|]. lia.
  - assert (d = 24) as Hd by lia. rewrite Hd in Hlo, Hhi.
    change (2 ^ (24 - 1)) with (2 ^ 23) in Hlo. lia.
Qed.

Lemma bits_of_weight_range w :
  valid_binary prec emax w = true -> 0 <= bits_of_weight w < 2 ^ 32.
Proof.
  destruct w as [s|s| |s m e]; cbn [bits_of_weight]; unfold sign_bit.
  1-3: intros _; try destruct s; lia.
  intros (He & Hm & Hsub)%valid_binary_finite.
  change (2 ^ 24) with 16777216 in *. change (2 ^ 23) with 8388608 in *.
  change (2 ^ 31) with 2147483648. change (2 ^ 32) with 4294967296.
  destruct (Z.ltb_spec (Z.pos m) 8388608); destruct s; lia.
Qed.

Lemma weight_of_bits_of_weight w :
  valid_binary prec emax w = true -> weight_of_bits (bits_of_weight w) = w.
Proof.
  destruct w as [s|s| |s m e]; cbn [bits_of_weight].
  1-3: intros _; try destruct s; reflexivity.
  intros (He & Hm & Hsub)%valid_binary_finite.
  unfold weight_of_bits, sign_bit.
  change (2 ^ 24) with 16777216 in *. change (2 ^ 23) with 8388608 in *.
  change (2 ^ 31) with 2147483648.
  destruct (Z.ltb_spec (Z.pos m) 8388608) as [Hsmall|Hbig].
  - rewrite (Hsub Hsmall).
    set (x := (if s then 2147483648 else 0) + Z.pos m).
    assert ((2147483648 <=? x) = s) as ->.
    { subst x. destruct s; [apply Z.leb_le | apply Z.leb_gt]; lia. }
    assert ((x / 8388608) mod 256 = 0) as ->.
    { subst x. destruct s; Z.div_mod_to_equations; lia. }
    assert (x mod 8388608 = Z.pos m) as ->.
    { subst x. destruct s; Z.div_mod_to_equations; lia. }
    reflexivity.
  - set (x := (if s then 2147483648 else 0) + (e + 150) * 8388608 + (Z.pos m - 8388608)).
    assert ((2147483648 <=? x) = s) as ->.
    { subst x. destruct s; [apply Z.leb_le | apply Z.leb_gt]; lia. }
    assert ((x / 8388608) mod 256 = e + 150) as ->.
    { subst x. destruct s; Z.div_mod_to_equations; lia. }
    assert (x mod 8388608 = Z.pos m - 8388608) as ->.
    { subst x. destruct s; Z.div_mod_to_equations; lia. }
    destruct (Z.eqb_spec (e + 150) 0); [lia|].
    destruct (Z.eqb_spec (e + 150) 255); [lia|].
    replace (Z.pos m - 8388608 + 8388608) with (Z.pos m) by lia.
    f_equal. lia.
Qed.

Lemma value_repr_weight_t w :
  valid_binary prec emax w = true -> value_weight_t (repr_weight_t w) = w.
Proof.
  intros Hw. unfold value_weight_t, repr_weight_t, sizeof_weight_t.
  rewrite le_value_le_bytes.
  change (256 ^ Z.of_nat 4) with (2 ^ 32).
  rewrite Z.mod_small by by apply bits_of_weight_range.
  by apply weight_of_bits_of_weight.
Qed.

End Representations.

(** * Streams *)

Section Streams.
Implicit Types (fp : FILE) (value : list byte).

Lemma remaining_advance size fp :
  remaining (advance size fp) = drop size (remaining fp).
Proof.
  unfold remaining, advance. simpl.
  destruct (f_eof fp); [by rewrite drop_nil | by rewrite drop_drop].
Qed.

Lemma advance_advance n m fp : advance m (advance n fp) = advance (n + m) fp.
Proof. unfold advance. simpl. f_equal. lia. Qed.

Lemma fread_enough size fp :
  (0 < size <= length (remaining fp))%nat ->
  fread size fp = (1, take size (remaining fp), advance size fp).
Proof.
  unfold fread, remaining, advance. destruct (f_eof fp); simpl; [lia|].
  intros H. by rewrite bool_decide_eq_true_2 by lia.
Qed.

Lemma fread_short size fp :
  (length (remaining fp) < size)%nat ->
  exists fp', fread size fp = (0, remaining fp, fp') /\ f_eof fp' = true.
Proof.
  unfold fread, remaining. destruct (f_eof fp) eqn:Heof; [eauto|].
  intros H. rewrite bool_decide_eq_false_2 by lia. eauto.
Qed.

(** Reading an object whose bytes are the next ones of the stream. *)
Lemma fread_value value rest fp :
  (0 < length value)%nat ->
  remaining fp = value ++ rest ->
  fread (length value) fp = (1, value, advance (length value) fp)
  /\ remaining (advance (length value) fp) = rest.
Proof.
  intros Hlen H. rewrite fread_enough, remaining_advance, H.
  - by rewrite take_app_length, drop_app_length.
  - rewrite H, length_app. lia.
Qed.

(** The two outcomes of [fread]: all the bytes, from a stream whose
    indicator is clear and stays so; or status 0 and the indicator set. *)
Lemma fread_status size fp status bytes fp' :
  fread size fp = (status, bytes, fp') ->
  (status = 1 /\ fp' = advance size fp /\ (size <= length (remaining fp))%nat
     /\ bytes = take size (remaining fp) /\ f_eof fp = false /\ f_eof fp' = false)
  \/ (status = 0 /\ f_eof fp' = true /\ ((length (remaining fp) < size)%nat \/ size = 0%nat)).
Proof.
  unfold fread, remaining, advance. destruct (f_eof fp) eqn:Heof.
  - intros [= <- <- <-]. right. simpl. split; [done|]. split; [done|]. lia.
  - case_bool_decide; intros [= <- <- <-].
    + left. done.
    + right. split; [done|]. split; [done|]. lia.
Qed.

Lemma append_append v1 v2 fp : append v2 (append v1 fp) = append (v1 ++ v2) fp.
Proof. unfold append. simpl. by rewrite (assoc_L (++)). Qed.

Lemma at_end_append value fp : at_end (append value fp).
Proof. done. Qed.

Lemma _write_at_end value fp : at_end fp -> _write value fp = Ok (append value fp).
Proof.
  intros [Hmode Hpos]. unfold _write, fwrite, append. rewrite Hmode, Hpos. simpl.
  rewrite take_ge, drop_ge, app_nil_r, length_app by lia. done.
Qed.

End Streams.

(** * qsort *)

Section Sorting.
Implicit Types (l : list SparseArrayC) (x : SparseArrayC).

Lemma qsort_insert_perm cmp x l : qsort_insert cmp x l ≡ₚ x :: l.
Proof.
  induction l as [|y l IH]; simpl; [done|].
  destruct (cmp x y <=? 0); [done|]. rewrite IH. apply Permutation_swap.
Qed.

Lemma qsort_perm cmp l : qsort cmp l ≡ₚ l.
Proof.
  induction l as [|x l IH]; simpl; [done|].
  by rewrite qsort_insert_perm, IH.
Qed.

Lemma qsort_length cmp l : length (qsort cmp l) = length l.
Proof. apply Permutation_length, qsort_perm. Qed.

(** Under a comparator that finds all slots equal the vector stays as it
    is. *)
Lemma qsort_cmp_equal l : qsort cmp_equal l = l.
Proof.
  induction l as [|x l IH]; simpl; [done|].
  rewrite IH. by destruct l.
Qed.

Lemma live_entries_nonneg feat : Forall (fun cw => 0 <= key cw) (live_entries feat).
Proof. apply Forall_forall. intros cw. apply live_entries_key. Qed.

End Sorting.

(** * _Writer *)

Section Writer.

Lemma scan_length_live feat i :
  scan_length feat = Some i ->
  take i feat = live_entries feat /\ length (live_entries feat) = i.
Proof.
  revert i. induction feat as [|cw rest IH]; intros i; simpl; [done|].
  destruct (0 <=? key cw).
  - destruct (scan_length rest) as [j|]; [|done].
    intros [= <-]. destruct (IH j eq_refl) as [Htake Hlen].
    simpl. by rewrite Htake, Hlen.
  - by intros [= <-].
Qed.

Lemma length_encode_entry cw : length (encode_entry cw) = 8%nat.
Proof.
  unfold encode_entry, repr_int32, repr_weight_t.
  by rewrite length_app, !length_le_bytes.
Qed.

Lemma encode_entries_cons cw entries :
  encode_entries (cw :: entries)
  = repr_int32 (key cw) ++ repr_weight_t (val cw) ++ encode_entries entries.
Proof.
  unfold encode_entries. rewrite fmap_cons. cbn [concat].
  unfold encode_entry. by rewrite <- (assoc_L (++)).
Qed.

Lemma write_entries_at_end entries fp :
  at_end fp ->
  _Writer.write_entries entries fp = Ok (append (encode_entries entries) fp).
Proof.
  revert fp. induction entries as [|cw entries IH]; intros fp Hfp.
  - simpl. unfold append, encode_entries. simpl. rewrite app_nil_r.
    destruct Hfp as [Hmode Hpos]. destruct fp; simpl in *. by subst.
  - cbn [_Writer.write_entries]. rewrite _write_at_end by done.
    unfold mbind, result_bind.
    rewrite _write_at_end by apply at_end_append.
    rewrite IH by apply at_end_append.
    by rewrite !append_append, encode_entries_cons.
Qed.

(** What [write] does with a terminated vector: one record, whose slots
    are the live slots of the vector in the order [qsort] gives them. *)
Lemma write_at_end cmp self feat_id feat i :
  at_end (_Writer._fp self) ->
  scan_length feat = Some i ->
  in_int32 (Z.of_nat i) = true ->
  _Writer.write cmp self feat_id (Some feat)
  = Ok (0,
        _Writer.mk
          (append (encode_record (feat_id, qsort cmp (live_entries feat)))
             (_Writer._fp self))
          (_Writer._nr_class self),
        Some (qsort cmp (live_entries feat) ++ drop i feat)).
Proof.
  intros Hfp Hscan Hi. unfold _Writer.write.
  rewrite Hscan, Hi, _write_at_end by done.
  destruct (scan_length_live _ _ Hscan) as [Htake Hlen].
  unfold mbind, result_bind.
  rewrite _write_at_end by apply at_end_append.
  rewrite Htake.
  rewrite take_app_length' by (by rewrite qsort_length).
  rewrite write_entries_at_end by apply at_end_append.
  rewrite !append_append. unfold encode_record. simpl.
  by rewrite qsort_length, Hlen.
Qed.

End Writer.

(** * _Reader *)

(** Rewriting with the outcome [H] of a successful [fread]. *)
Ltac fread_step H :=
  rewrite H; cbv beta iota zeta; change (1 =? 0) with false; cbv beta iota zeta.

Section Reader.

Lemma length_encode_entries entries :
  length (encode_entries entries) = (8 * length entries)%nat.
Proof.
  induction entries as [|cw entries IH]; [done|].
  rewrite encode_entries_cons, !length_app, IH.
  unfold repr_int32, repr_weight_t. rewrite !length_le_bytes. simpl. lia.
Qed.

Lemma length_repr_int32 z : length (repr_int32 z) = sizeof_int32_t.
Proof. apply length_le_bytes. Qed.

Lemma length_repr_weight_t w : length (repr_weight_t w) = sizeof_weight_t.
Proof. apply length_le_bytes. Qed.

Lemma length_repr_feat_t k : length (repr_feat_t k) = sizeof_feat_t.
Proof. apply length_le_bytes. Qed.

Lemma length_encode_record record :
  length (encode_record record)
  = (sizeof_feat_t + (sizeof_int32_t + 8 * length record.2))%nat.
Proof.
  unfold encode_record.
  by rewrite !length_app, length_encode_entries, length_repr_feat_t,
    length_repr_int32.
Qed.

Lemma fread_sized size value rest fp :
  length value = size -> (0 < size)%nat ->
  remaining fp = value ++ rest ->
  fread size fp = (1, value, advance size fp)
  /\ remaining (advance size fp) = rest.
Proof. intros <- ?. by apply fread_value. Qed.

Lemma fread_feat_t k rest fp :
  remaining fp = repr_feat_t k ++ rest ->
  fread sizeof_feat_t fp = (1, repr_feat_t k, advance sizeof_feat_t fp)
  /\ remaining (advance sizeof_feat_t fp) = rest.
Proof. apply fread_sized; [apply length_repr_feat_t | unfold sizeof_feat_t; lia]. Qed.

Lemma fread_int32 z rest fp :
  remaining fp = repr_int32 z ++ rest ->
  fread sizeof_int32_t fp = (1, repr_int32 z, advance sizeof_int32_t fp)
  /\ remaining (advance sizeof_int32_t fp) = rest.
Proof. apply fread_sized; [apply length_repr_int32 | unfold sizeof_int32_t; lia]. Qed.

Lemma fread_weight_t w rest fp :
  remaining fp = repr_weight_t w ++ rest ->
  fread sizeof_weight_t fp = (1, repr_weight_t w, advance sizeof_weight_t fp)
  /\ remaining (advance sizeof_weight_t fp) = rest.
Proof. apply fread_sized; [apply length_repr_weight_t | unfold sizeof_weight_t; lia]. Qed.

(** Reading back the slots that [write_entries] has written. *)
Lemma read_entries_encoded entries rest fp :
  Forall (fun cw => entry_ok cw = true) entries ->
  remaining fp = encode_entries entries ++ rest ->
  _Reader.read_entries (length entries) fp
  = Ok (entries, advance (8 * length entries) fp).
Proof.
  revert fp. induction entries as [|cw entries IH]; intros fp Hok Hrem.
  { simpl. unfold advance. destruct fp; simpl. do 3 f_equal. lia. }
  apply Forall_cons in Hok as [[Hkey Hval]%andb_true_iff Hok].
  rewrite encode_entries_cons, <- !(assoc_L (++)) in Hrem.
  destruct (fread_int32 _ _ _ Hrem) as [Hread1 Hrem1].
  destruct (fread_weight_t _ _ _ Hrem1) as [Hread2 Hrem2].
  cbn [_Reader.read_entries length]. fread_step Hread1. fread_step Hread2.
  rewrite (IH _ Hok Hrem2). unfold mbind, result_bind.
  rewrite value_repr_int32, value_repr_weight_t by done.
  rewrite !advance_advance. destruct cw. cbn [key val]. do 3 f_equal.
  unfold sizeof_int32_t, sizeof_weight_t. lia.
Qed.

(** What [read_entries] returns on any stream: slot [i] holds the values
    of bytes [8i .. 8i+8) of the stream. *)
Lemma read_entries_inv n fp entries fp' :
  _Reader.read_entries n fp = Ok (entries, fp') ->
  length entries = n /\ fp' = advance (8 * n) fp
  /\ forall i : nat, (i < n)%nat ->
       entries !! i
       = Some (mkSparse (value_int32 (take 4 (drop (8 * i) (remaining fp))))
                 (value_weight_t (take 4 (drop (4 + 8 * i) (remaining fp))))).
Proof.
  revert fp entries fp'. induction n as [|n IH]; intros fp entries fp'.
  { simpl. intros [= <- <-]. split; [done|]. split; [|lia].
    unfold advance. destruct fp; simpl. f_equal. lia. }
  cbn [_Reader.read_entries].
  destruct (fread sizeof_int32_t fp) as [[status1 key_bytes] fp1] eqn:Hread1.
  apply fread_status in Hread1 as [(-> & -> & _ & -> & _)|[-> _]]; [|done].
  simpl.
  destruct (fread sizeof_weight_t _) as [[status2 val_bytes] fp2] eqn:Hread2.
  apply fread_status in Hread2 as [(-> & -> & _ & -> & _)|[-> _]]; [|done].
  simpl.
  destruct (_Reader.read_entries n _) as [[rest fp3]|] eqn:Hrest; [|done].
  unfold mbind, result_bind. intros [= <- <-].
  destruct (IH _ _ _ Hrest) as (Hlen & -> & Hslots).
  split; [by rewrite <- Hlen|]. split.
  { rewrite !advance_advance. unfold advance, sizeof_int32_t, sizeof_weight_t.
    f_equal. lia. }
  intros [|i] Hi.
  - simpl. rewrite remaining_advance. unfold sizeof_int32_t, sizeof_weight_t.
    by rewrite drop_0.
  - simpl. rewrite Hslots by lia.
    rewrite !remaining_advance, !drop_drop.
    unfold sizeof_int32_t, sizeof_weight_t.
    do 4 f_equal; f_equal; lia.
Qed.

(** The two ways [read] returns normally: at the end of the stream, or
    with a record. *)
Lemma read_inv self status out self' :
  _Reader.read self = Ok (status, out, self') ->
  let fp := _Reader._fp self in
  let L := value_int32 (take 4 (drop 8 (remaining fp))) in
  (status = 0 /\ out = None /\ (length (remaining fp) < 8)%nat
     /\ feof (_Reader._fp self') = true)
  \/ exists entries fp',
       out = Some (value_feat_t (take 8 (remaining fp)),
                   entries ++ [capacity_sentinel])
       /\ status = (if feof fp' then 0 else 1)
       /\ self' = _Reader.mk fp' (_Reader._nr_class self)
       /\ 0 <= L
       /\ _Reader.read_entries (Z.to_nat L) (advance 12 fp) = Ok (entries, fp')
       /\ (sizeof_feat_t <= length (remaining fp))%nat
       /\ feof fp' = false.
Proof.
  intros Hread fp L. unfold _Reader.read in Hread.
  fold fp in Hread.
  destruct (fread sizeof_feat_t fp) as [[status1 id_bytes] fp1] eqn:Hread1.
  destruct (fread_status _ _ _ _ _ Hread1)
    as [(-> & -> & Hlen & -> & Heof & _)|(-> & Heof1 & Hshort)].
  2:{ simpl in Hread. injection Hread as <- <- <-. left.
      unfold sizeof_feat_t in Hshort. split; [done|]. split; [done|].
      split; [lia|done]. }
  simpl in Hread.
  destruct (fread sizeof_int32_t _) as [[status2 length_bytes] fp2] eqn:Hread2.
  apply fread_status in Hread2 as [(-> & -> & _ & -> & _)|[-> _]]; [|done].
  simpl in Hread. rewrite remaining_advance in Hread.
  unfold sizeof_feat_t, sizeof_int32_t in Hread. fold L in Hread.
  destruct (Z.ltb_spec L 0); [done|].
  rewrite advance_advance in Hread. simpl in Hread.
  destruct (_Reader.read_entries _ _) as [[entries fp3]|] eqn:Hentries; [|done].
  unfold mbind, result_bind in Hread. injection Hread as <- <- <-.
  right. exists entries, fp3. repeat split; try done.
  destruct (read_entries_inv _ _ _ _ Hentries) as (_ & -> & _).
  unfold feof, advance. simpl. exact Heof.
Qed.

(** Reading back a record that [write] has written. *)
Lemma read_record self record rest :
  in_uint64 record.1 = true ->
  in_int32 (Z.of_nat (length record.2)) = true ->
  Forall (fun cw => entry_ok cw = true) record.2 ->
  remaining (_Reader._fp self) = encode_record record ++ rest ->
  _Reader.read self
  = Ok (if feof (_Reader._fp self) then 0 else 1,
        Some (record.1, record.2 ++ [capacity_sentinel]),
        _Reader.mk (advance (length (encode_record record)) (_Reader._fp self))
          (_Reader._nr_class self)).
Proof.
  destruct record as [feat_id entries]. cbn [fst snd]. intros Hid Hlen Hok Hrem.
  unfold encode_record in Hrem. cbn [fst snd] in Hrem.
  rewrite <- !(assoc_L (++)) in Hrem.
  destruct (fread_feat_t _ _ _ Hrem) as [Hread1 Hrem1].
  destruct (fread_int32 _ _ _ Hrem1) as [Hread2 Hrem2].
  unfold _Reader.read. fread_step Hread1. fread_step Hread2.
  rewrite value_repr_int32 by done.
  destruct (Z.ltb_spec (Z.of_nat (length entries)) 0); [lia|].
  rewrite Nat2Z.id, (read_entries_encoded _ _ _ Hok Hrem2).
  unfold mbind, result_bind.
  rewrite value_repr_feat_t by done.
  by rewrite !advance_advance, length_encode_record.
Qed.

End Reader.




Lemma scan_length_sentinel entries :
  Forall (fun cw => 0 <= key cw) entries ->
  scan_length (entries ++ [capacity_sentinel]) = Some (length entries)
  /\ live_entries (entries ++ [capacity_sentinel]) = entries.
Proof.
  induction 1 as [|cw entries Hcw _ [IH1 IH2]]; [done|].
  simpl. rewrite (proj2 (Z.leb_le _ _) Hcw), IH1, IH2. done.
Qed.

(** C6.  When [read] returns a record, the length field [L] it has read is
    not negative, the vector has [L + 1] slots, slot [i < L] holds the
    class id and weight read from bytes [12 + 8i .. 20 + 8i) of the stream,
    slot [L] is the capacity sentinel (class id -2, weight 0), and if the
    [L] class ids read are not negative, the scan that stops at the first
    negative class id passes exactly the first [L] slots. *)
Theorem read_sentinel_integrity self status feat_id feat self' :
  _Reader.read self = Ok (status, Some (feat_id, feat), self') ->
  let bytes := remaining (_Reader._fp self) in
  let L := value_int32 (take 4 (drop 8 bytes)) in
  0 <= L
  /\ length feat = S (Z.to_nat L)
  /\ (forall i : nat, Z.of_nat i < L ->
        feat !! i
        = Some (mkSparse (value_int32 (take 4 (drop (12 + 8 * i) bytes)))
                  (value_weight_t (take 4 (drop (16 + 8 * i) bytes)))))
  /\ feat !! Z.to_nat L = Some capacity_sentinel
  /\ ((forall (i : nat) cw, Z.of_nat i < L -> feat !! i = Some cw -> 0 <= key cw) ->
      scan_length feat = Some (Z.to_nat L)
      /\ live_entries feat = take (Z.to_nat L) feat).
Proof.
  intros Hread bytes L.
  destruct (read_inv _ _ _ _ Hread) as [(_ & [=] & _)|(entries & fp' & Hout & _ & _ & HL & Hentries & _)].
  fold bytes in Hout, HL. fold L in HL, Hentries.
  injection Hout as -> ->.
  destruct (read_entries_inv _ _ _ _ Hentries) as (Hlen & _ & Hslots).
  change (value_int32 (take 4 (drop 8 (remaining (_Reader._fp self))))) with L in *.
  split; [done|]. split; [rewrite length_app, Hlen; simpl; lia|].
  split; [|split].
  - intros i Hi. rewrite lookup_app_l by lia.
    rewrite Hslots by lia. rewrite remaining_advance. fold bytes.
    rewrite !drop_drop. do 4 f_equal; f_equal; lia.
  - rewrite <- Hlen. by rewrite list_lookup_middle.
  - intros Hkeys.
    assert (Forall (fun cw => 0 <= key cw) entries) as Hall.
    { apply Forall_lookup. intros i cw Hcw. apply (Hkeys i).
      - apply lookup_lt_Some in Hcw. lia.
      - by rewrite lookup_app_l by (by eapply lookup_lt_Some). }
    destruct (scan_length_sentinel _ Hall) as [-> ->].
    by rewrite <- Hlen, take_app_length.
Qed.

Lemma read_sentinel_integrity_witness :
  let feat := record_42.2 ++ [capacity_sentinel] in
  let bytes := remaining (_Reader._fp reader_example) in
  let L := value_int32 (take 4 (drop 8 bytes)) in
  0 <= L
  /\ length feat = S (Z.to_nat L)
  /\ (forall i : nat, Z.of_nat i < L ->
        feat !! i
        = Some (mkSparse (value_int32 (take 4 (drop (12 + 8 * i) bytes)))
                  (value_weight_t (take 4 (drop (16 + 8 * i) bytes)))))
  /\ feat !! Z.to_nat L = Some capacity_sentinel
  /\ ((forall (i : nat) cw, Z.of_nat i < L -> feat !! i = Some cw -> 0 <= key cw) ->
      scan_length feat = Some (Z.to_nat L)
      /\ live_entries feat = take (Z.to_nat L) feat).
Proof.
  apply (read_sentinel_integrity reader_example 1 42
           (record_42.2 ++ [capacity_sentinel])
           (_Reader.mk (advance 28 (_Reader._fp reader_example)) 10)).
  vm_compute. reflexivity.
Defined.



(** * dump and load *)

Section DumpLoad.
Implicit Types (weights : PreshMap) (os : OS) (loc : string).

Lemma path_isdir_false os loc :
  path_isdir os loc = false -> os_fs os !! loc <> Some Directory.
Proof. unfold path_isdir. by intros H Heq; rewrite Heq in H. Qed.

Lemma Writer_init_ok os loc nr_class :
  path_isdir os loc = false ->
  loc ∉ os_fopen_refused os ->
  in_int32 nr_class = true ->
  _Writer.__init__ os loc nr_class
  = Ok (_Writer.mk (append (repr_int32 nr_class) (mkFILE loc WriteBinary [] 0 false))
          nr_class,
        mkOS (<[loc := Regular []]> (os_fs os)) (os_fopen_refused os)
          (os_fclose_status os)).
Proof.
  intros Hdir Hopen Hnr. unfold _Writer.__init__, fopen.
  rewrite Hdir, andb_false_r, bool_decide_eq_false_2, Hnr by done.
  apply path_isdir_false in Hdir.
  destruct (os_fs os !! loc) as [[|content]|]; [done| |];
    (rewrite _write_at_end by done); done.
Qed.

Lemma Reader_init_ok os loc nr_class rest :
  os_fs os !! loc = Some (Regular (repr_int32 nr_class ++ rest)) ->
  loc ∉ os_fopen_refused os ->
  in_int32 nr_class = true ->
  _Reader.__init__ os loc
  = Ok (_Reader.mk
          (advance sizeof_class_t
             (mkFILE loc ReadBinary (repr_int32 nr_class ++ rest) 0 false))
          nr_class,
        os).
Proof.
  intros Hfile Hopen Hnr. unfold _Reader.__init__, path_exists, path_isdir, fopen.
  rewrite Hfile, bool_decide_eq_false_2 by done. cbn [negb].
  set (fp := fseek0 _).
  destruct (fread_sized sizeof_class_t (repr_int32 nr_class) rest fp)
    as [Hread _]; [apply length_repr_int32 | unfold sizeof_class_t; lia | done |].
  rewrite Hread. unfold overlay.
  rewrite drop_ge, app_nil_r by (by rewrite !length_repr_int32).
  by rewrite value_repr_int32.
Qed.

Lemma Writer_init_at_end os loc nr_class writer os' :
  _Writer.__init__ os loc nr_class = Ok (writer, os') ->
  at_end (_Writer._fp writer).
Proof.
  unfold _Writer.__init__, fopen.
  destruct (path_exists os loc && path_isdir os loc); [done|].
  case_bool_decide; [done|].
  destruct (os_fs os !! loc) as [[|content]|]; [done| |];
    (destruct (in_int32 nr_class); [|done]);
    (rewrite _write_at_end by done); intros [= <- _]; apply at_end_append.
Qed.

Lemma vec_ok_inv feat :
  vec_ok feat = true ->
  exists i, scan_length feat = Some i /\ in_int32 (Z.of_nat i) = true
    /\ Forall (fun cw => entry_ok cw = true) (live_entries feat).
Proof.
  unfold vec_ok. destruct (scan_length feat) as [i|]; [|done].
  intros [Hi Hall]%andb_true_iff. exists i. split; [done|]. split; [done|].
  apply Forall_forall. intros cw Hcw%list_elem_of_In.
  by apply (proj1 (forallb_forall _ _) Hall).
Qed.


Lemma store_ok_inv weights k v :
  store_ok weights = true -> weights !! k = Some v ->
  in_uint64 k = true /\ from_option vec_ok true v = true.
Proof.
  unfold store_ok. intros Hok Hk.
  apply elem_of_map_to_list, list_elem_of_In in Hk.
  apply (proj1 (forallb_forall _ _) Hok) in Hk.
  by apply andb_true_iff in Hk.
Qed.


End DumpLoad.

Section Load.
Implicit Types (weights : PreshMap) (records : list (feat_t * list SparseArrayC)).

Lemma record_ok_inv record :
  record_ok record = true ->
  in_uint64 record.1 = true /\ in_int32 (Z.of_nat (length record.2)) = true
  /\ Forall (fun cw => entry_ok cw = true) record.2.
Proof.
  unfold record_ok. intros [[? ?]%andb_true_iff Hall]%andb_true_iff.
  split; [done|]. split; [done|].
  apply Forall_forall. intros cw Hcw%list_elem_of_In.
  by apply (proj1 (forallb_forall _ _) Hall).
Qed.


Lemma foldl_insert_record_other records weights k :
  k ∉ records.*1 ->
  foldl insert_record weights records !! k = weights !! k.
Proof.
  revert weights. induction records as [|record records IH]; intros weights; [done|].
  rewrite fmap_cons. intros [Hne Hnotin]%not_elem_of_cons.
  cbn [foldl]. rewrite IH by done. unfold insert_record.
  by rewrite lookup_insert_ne.
Qed.

Lemma foldl_insert_record_lookup records weights k entries :
  NoDup records.*1 ->
  (k, entries) ∈ records ->
  foldl insert_record weights records !! k
  = Some (Some (entries ++ [capacity_sentinel])).
Proof.
  revert weights. induction records as [|record records IH]; intros weights.
  { by intros _ ?%elem_of_nil. }
  rewrite fmap_cons. intros [Hnotin Hnodup]%NoDup_cons [<-|Hin]%elem_of_cons.
  - cbn [foldl]. rewrite foldl_insert_record_other by done.
    unfold insert_record. cbn [fst snd]. by rewrite lookup_insert_eq.
  - cbn [foldl]. by apply IH.
Qed.

Lemma elem_of_sorted_records cmp items k entries :
  (k, entries) ∈ sorted_records cmp items
  <-> exists feat, (k, Some feat) ∈ items
        /\ entries = qsort cmp (live_entries feat).
Proof.
  unfold sorted_records. rewrite list_elem_of_omap. split.
  - intros ([k' [feat|]] & Hin & Heq); simpl in Heq; [|done].
    injection Heq as -> <-. eauto.
  - intros (feat & Hin & Heq). subst entries. by exists (k, Some feat).
Qed.

Lemma sorted_records_keys cmp items k :
  k ∈ (sorted_records cmp items).*1 -> k ∈ items.*1.
Proof.
  intros ([k' entries] & -> & Hin)%list_elem_of_fmap.
  apply elem_of_sorted_records in Hin as (feat & Hin & _).
  by apply (list_elem_of_fmap_2 fst) in Hin.
Qed.

Lemma sorted_records_NoDup cmp items :
  NoDup items.*1 -> NoDup (sorted_records cmp items).*1.
Proof.
  induction items as [|[k [feat|]] items IH]; [done| |];
    rewrite fmap_cons; intros [Hnotin Hnodup]%NoDup_cons.
  - change (sorted_records cmp ((k, Some feat) :: items))
      with ((k, qsort cmp (live_entries feat)) :: sorted_records cmp items).
    rewrite fmap_cons. apply NoDup_cons. split; [|auto].
    intros Hin. by eapply Hnotin, sorted_records_keys.
  - change (sorted_records cmp ((k, None) :: items)) with (sorted_records cmp items).
    auto.
Qed.

Lemma sorted_records_ok cmp weights :
  store_ok weights = true ->
  Forall (fun record => record_ok record = true)
    (sorted_records cmp (map_to_list weights)).
Proof.
  intros Hok. apply Forall_forall. intros [k entries] Hin.
  apply elem_of_sorted_records in Hin as (feat & Hin%elem_of_map_to_list & ->).
  destruct (store_ok_inv _ _ _ Hok Hin) as [Hk Hfeat]. simpl in Hfeat.
  destruct (vec_ok_inv _ Hfeat) as (i & Hscan & Hi & Hall).
  destruct (scan_length_live _ _ Hscan) as [_ Hlen].
  unfold record_ok. cbn [fst snd].
  rewrite Hk, qsort_length, Hlen, Hi. cbn [andb].
  apply forallb_forall. intros cw Hcw%list_elem_of_In.
  rewrite qsort_perm in Hcw.
  rewrite Forall_forall in Hall. by apply Hall.
Qed.

End Load.

Lemma length_records_encoded (records : list (feat_t * list SparseArrayC)) :
  (length records <= length (concat (encode_record <$> records)))%nat.
Proof.
  induction records as [|record records IH]; [done|].
  rewrite fmap_cons. cbn [concat length].
  rewrite length_app, length_encode_record. unfold sizeof_feat_t. lia.
Qed.




(** The scenario of the specification: class count 5 and no entries. *)
Example dump_load_empty_scenario :
  let os' := mkOS {[ "model"%string := Regular (repr_int32 5) ]} ∅ 0 in
  dump SparseArray_cmp ∅ os_example 5 "model" = Ok (∅, os')
  /\ load ∅ os' "model" = Ok (5, ∅, os').
Proof. split; vm_compute; reflexivity. Qed.


(** The loop of [load] ends: every record consumes at least the eight
    bytes of its key, so [load_fuel] iterations are never used up. *)
Lemma load_loop_terminates fuel reader (weights : PreshMap) :
  (length (remaining (_Reader._fp reader)) < fuel)%nat ->
  load_loop fuel reader weights <> None.
Proof.
  revert reader weights. induction fuel as [|fuel IH]; intros reader weights Hfuel; [lia|].
  cbn [load_loop].
  destruct (_Reader.read reader) as [[[status out] reader']|] eqn:Hread; [|done].
  destruct (status =? 0); [done|].
  destruct out as [[feat_id feature]|]; [|done].
  apply IH.
  destruct (read_inv _ _ _ _ Hread)
    as [(_ & [=] & _)|(entries & fp' & _ & _ & -> & _ & Hentries & Hlen & _)].
  destruct (read_entries_inv _ _ _ _ Hentries) as (_ & -> & _).
  cbn [_Reader._fp]. rewrite !remaining_advance, !length_drop.
  unfold sizeof_feat_t in Hlen. lia.
Qed.

(** X20.  The loop of [load] ends on every stream, whatever its bytes:
    the iterations [load] allows itself, one more than the file has bytes,
    are never used up. *)
Lemma load_fuel_enough reader (weights : PreshMap) :
  load_loop (load_fuel reader) reader weights <> None.
Proof.
  apply load_loop_terminates. unfold load_fuel, remaining.
  destruct (f_eof _); [simpl; lia|]. rewrite length_drop. lia.
Qed.

(** C9.  [_Writer.__init__] raises its assertion error exactly when the
    path names a directory or [fopen] returns NULL; [_Reader.__init__]
    raises it exactly when the path does not exist, names a directory or
    [fopen] returns NULL, and returns normally otherwise; [_Writer.close]
    raises it exactly when [fclose] reports a nonzero status, and returns
    the file system [fclose] leaves otherwise. *)
Theorem open_close_failures :
  (forall os loc nr_class,
     _Writer.__init__ os loc nr_class = Raise AssertionError
     <-> path_isdir os loc = true \/ (fopen os loc WriteBinary).1 = None)
  /\ (forall os loc,
        _Reader.__init__ os loc = Raise AssertionError
        <-> path_exists os loc = false \/ path_isdir os loc = true
            \/ (fopen os loc ReadBinary).1 = None)
  /\ (forall os loc,
        _Reader.__init__ os loc = Raise AssertionError
        \/ exists reader, _Reader.__init__ os loc = Ok (reader, os))
  /\ (forall self os,
        _Writer.close self os = Raise AssertionError
        <-> (fclose os (_Writer._fp self)).1 <> 0)
  /\ (forall self os,
        (fclose os (_Writer._fp self)).1 = 0
        -> _Writer.close self os = Ok (fclose os (_Writer._fp self)).2).
Proof.
  split; [|split; [|split; [|split]]].
  - intros os loc nr_class. unfold _Writer.__init__, path_exists, path_isdir, fopen.
    destruct (os_fs os !! loc) as [[|content]|] eqn:Hnode; cbn [andb];
      case_bool_decide; cbn [fst];
      try (destruct (in_int32 nr_class); [rewrite _write_at_end by done|]);
      split; try done; try (by left); try (by right); by intros [|].
  - intros os loc. unfold _Reader.__init__, path_exists, path_isdir, fopen.
    destruct (os_fs os !! loc) as [[|content]|] eqn:Hnode; cbn [negb];
      try case_bool_decide; cbn [fst];
      try destruct (fread _ _) as [[? ?] ?];
      split; try done; try (by left); try (by right; left); try (by right; right);
      by intros [|[|]].
  - intros os loc. unfold _Reader.__init__, path_exists, path_isdir, fopen.
    destruct (os_fs os !! loc) as [[|content]|] eqn:Hnode; cbn [negb];
      try case_bool_decide; try (by left).
    destruct (fread _ _) as [[? ?] ?]. right. eauto.
  - intros self os. unfold _Writer.close.
    destruct (fclose os (_Writer._fp self)) as [status os'] eqn:Hclose. cbn [fst].
    destruct (Z.eqb_spec status 0); split; done.
  - intros self os. unfold _Writer.close.
    destruct (fclose os (_Writer._fp self)) as [status os'] eqn:Hclose. cbn [fst snd].
    by intros ->.
Qed.

(** C8.  The first two statements of [backprop] leave in [deltas[depth]],
    at each of the [nr_class] first indices, the score minus the target,
    and leave every gradient accumulator as it was; the loop over the
    layers starts from that state. *)
Theorem backprop_terminal_delta {LayerC : Type} iaddC iadd_outerC
    (d_activate : list weight_t -> LayerC -> list weight_t -> list weight_t)
    depth layers eg eg1 :
  backprop_terminal depth eg = Some eg1 ->
  (exists delta,
     eg_deltas eg1 !! depth = Some delta
     /\ forall (i : nat) s t,
          Z.of_nat i < eg_nr_class eg ->
          eg_scores eg !! i = Some s -> eg_target eg !! i = Some t ->
          delta !! i = Some (weight_sub s t))
  /\ eg_grad eg1 = eg_grad eg
  /\ backprop iaddC iadd_outerC d_activate depth layers eg
     = backprop_layers iaddC iadd_outerC d_activate layers depth eg1.
Proof.
  unfold backprop, backprop_terminal.
  destruct (eg_deltas eg !! depth) as [dest|] eqn:Hdest; [|done]. cbn [mbind option_bind].
  unfold memcpy. case_bool_decide as Hn; [|done]. cbn [mbind option_bind].
  intros [= <-]. cbn [eg_deltas eg_grad]. split; [|done].
  eexists. split.
  { apply list_lookup_insert_eq. by eapply lookup_lt_Some. }
  intros i s t Hi Hs Ht. unfold Matrix_isubC.
  assert ((take (Z.to_nat (eg_nr_class eg)) (eg_scores eg)
             ++ drop (Z.to_nat (eg_nr_class eg)) dest) !! i = Some s) as Hcopied.
  { rewrite lookup_app_l by (rewrite length_take; lia).
    rewrite lookup_take_lt by lia. done. }
  rewrite lookup_app_l.
  - by rewrite lookup_zip_with, Hcopied, Ht.
  - rewrite length_zip_with. apply lookup_lt_Some in Hcopied, Ht. lia.
Qed.

Lemma backprop_terminal_delta_witness :
  let eg1 :=
    mkExample (eg_scores example_eg) (eg_target example_eg)
      [[weight_zero; weight_zero];
       [weight_lit 1 (-1); weight_lit (-3) (-2); weight_lit 1 (-2)]]
      (eg_signal example_eg) (eg_grad example_eg) 3 in
  (exists delta,
     eg_deltas eg1 !! 1%nat = Some delta
     /\ forall (i : nat) s t,
          Z.of_nat i < eg_nr_class example_eg ->
          eg_scores example_eg !! i = Some s -> eg_target example_eg !! i = Some t ->
          delta !! i = Some (weight_sub s t))
  /\ eg_grad eg1 = eg_grad example_eg
  /\ backprop (fun a _ _ => a) (fun W _ _ => W) (fun a (_ : unit) _ => a) 1 [tt; tt]
       example_eg
     = backprop_layers (fun a _ _ => a) (fun W _ _ => W) (fun a (_ : unit) _ => a)
         [tt; tt] 1 eg1.
Proof.
  intros eg1.
  apply (backprop_terminal_delta (fun a _ _ => a) (fun W _ _ => W)
           (fun a (_ : unit) _ => a) 1 [tt; tt] example_eg eg1).
  vm_compute. reflexivity.
Defined.

(** The rounding behind [doubling_counterexample] is not particular to
    binary32: in binary64, 1.5 * 2^-1074 rounds to 2 * 2^-1074 as well. *)
Example doubling_fails_in_binary64 :
  let mul := SFmul 53 1024 in
  let lit m e := binary_normalize 53 1024 m e false in
  mul (lit 3 (-1)) (mul (lit 2 0) (lit 1 (-1074))) = S754_finite false 3 (-1074)
  /\ mul (lit 2 0) (mul (lit 3 (-1)) (lit 1 (-1074))) = S754_finite false 4 (-1074).
Proof. split; vm_compute; reflexivity. Qed.

(** * More on the scorer *)

Section ScoringMore.
Implicit Types (weights : PreshMap) (scores : list weight_t)
  (feats : list FeatureC) (class_weights : SparseVec).

Lemma set_scores_from_split weights feats i0 n m scores :
  set_scores_from weights feats i0 (n + m) scores
  = scores' ← set_scores_from weights feats i0 n scores;
    set_scores_from weights feats (i0 + n) m scores'.
Proof.
  revert i0 scores. induction n as [|n IH]; intros i0 scores.
  { simpl. by rewrite Nat.add_0_r. }
  cbn [Nat.add set_scores_from].
  destruct (feats !! i0) as [feat|]; [|done].
  destruct (score_feature weights feat scores) as [scores'|]; [|done].
  rewrite IH. by rewrite Nat.add_succ_r.
Qed.

Lemma set_scores_from_app_l weights f1 f2 i0 n scores :
  (i0 + n <= length f1)%nat ->
  set_scores_from weights (f1 ++ f2) i0 n scores
  = set_scores_from weights f1 i0 n scores.
Proof.
  revert i0 scores. induction n as [|n IH]; intros i0 scores Hn; [done|].
  cbn [set_scores_from]. rewrite lookup_app_l by lia.
  destruct (f1 !! i0) as [feat|]; [|done].
  destruct (score_feature weights feat scores) as [scores'|]; [|done].
  apply IH. lia.
Qed.

Lemma set_scores_from_app_r weights f1 f2 i0 n scores :
  set_scores_from weights (f1 ++ f2) (length f1 + i0) n scores
  = set_scores_from weights f2 i0 n scores.
Proof.
  revert i0 scores. induction n as [|n IH]; intros i0 scores; [done|].
  cbn [set_scores_from]. rewrite lookup_app_r by lia.
  replace (length f1 + i0 - length f1)%nat with i0 by lia.
  destruct (f2 !! i0) as [feat|]; [|done].
  destruct (score_feature weights feat scores) as [scores'|]; [|done].
  rewrite <- IH. f_equal. lia.
Qed.

Lemma set_scores_from_take weights feats i0 n scores :
  set_scores_from weights (take (i0 + n) feats) i0 n scores
  = set_scores_from weights feats i0 n scores.
Proof.
  revert i0 scores. induction n as [|n IH]; intros i0 scores; [done|].
  cbn [set_scores_from]. rewrite lookup_take_lt by lia.
  destruct (feats !! i0) as [feat|]; [|done].
  destruct (score_feature weights feat scores) as [scores'|]; [|done].
  rewrite <- IH. do 2 f_equal. lia.
Qed.

End ScoringMore.

(** X1.  Scoring a list of features that is two lists put end to end is
    scoring the first list and then, on the resulting buffer, the second;
    it is undefined as soon as one of the two is. *)
Theorem set_scores_app (weights : PreshMap) scores (feats1 feats2 : list FeatureC) :
  set_scores weights scores (feats1 ++ feats2) (Z.of_nat (length (feats1 ++ feats2)))
  = scores' ← set_scores weights scores feats1 (Z.of_nat (length feats1));
    set_scores weights scores' feats2 (Z.of_nat (length feats2)).
Proof.
  unfold set_scores. rewrite !Nat2Z.id, length_app, set_scores_from_split.
  rewrite set_scores_from_app_l by lia.
  destruct (set_scores_from weights feats1 0 (length feats1) scores) as [scores'|];
    [|done].
  cbn [mbind option_bind Nat.add].
  rewrite <- (set_scores_from_app_r weights feats1 feats2 0).
  by rewrite Nat.add_0_r.
Qed.

(** X2.  [set_scores] reads the first [nr_feat] features only: the
    features after them do not matter, and a count that is zero or negative
    leaves the buffer as it is. *)
Theorem set_scores_reads_prefix (weights : PreshMap) scores (feats : list FeatureC) nr_feat :
  set_scores weights scores feats nr_feat
  = set_scores weights scores (take (Z.to_nat nr_feat) feats) nr_feat
  /\ (nr_feat <= 0 -> set_scores weights scores feats nr_feat = Some scores).
Proof.
  unfold set_scores. split.
  - by rewrite <- (set_scores_from_take weights feats 0).
  - intros Hn. by replace (Z.to_nat nr_feat) with 0%nat by lia.
Qed.

Section ScoringAccumulates.
Implicit Types (weights : PreshMap) (scores : list weight_t)
  (feats : list FeatureC) (class_weights : SparseVec).

Lemma add_class_weights_defined class_weights v scores :
  is_Some (add_class_weights class_weights v scores)
  <-> is_Some (scan_length class_weights)
      /\ forall cw, cw ∈ live_entries class_weights ->
           key cw < Z.of_nat (length scores).
Proof.
  revert scores. induction class_weights as [|e rest IH]; intros scores; simpl.
  { split; [by intros [? [=]] | by intros [[? [=]] _]]. }
  destruct (Z.leb_spec 0 (key e)) as [He|He].
  - destruct (scores !! Z.to_nat (key e)) as [s|] eqn:Hs.
    + rewrite IH, length_insert, fmap_is_Some. apply lookup_lt_Some in Hs.
      split.
      * intros [Hscan Hall]. split; [done|].
        intros cw [->|Hcw]%elem_of_cons; [lia | auto].
      * intros [Hscan Hall]. split; [done|].
        intros cw Hcw. apply Hall. by apply list_elem_of_further.
    + apply lookup_ge_None in Hs. split; [by intros [? [=]]|].
      intros [_ Hall]. specialize (Hall e (list_elem_of_here _ _)). lia.
  - split; [|by eauto]. intros _. split; [by eauto|].
    by intros cw ?%elem_of_nil.
Qed.

Lemma score_feature_length weights feat scores scores' :
  score_feature weights feat scores = Some scores' ->
  length scores' = length scores.
Proof.
  unfold score_feature. destruct (map_get _ _); [|by intros [= ->]].
  apply add_class_weights_length.
Qed.

Lemma set_scores_from_defined weights feats i0 n scores :
  is_Some (set_scores_from weights feats i0 n scores)
  <-> (i0 + n <= length feats \/ n = 0)%nat
      /\ forall (j : nat) feat class_weights,
           (i0 <= j < i0 + n)%nat -> feats !! j = Some feat ->
           map_get weights (feat_key feat) = Some class_weights ->
           is_Some (scan_length class_weights)
           /\ forall cw, cw ∈ live_entries class_weights ->
                key cw < Z.of_nat (length scores).
Proof.
  revert i0 scores. induction n as [|n IH]; intros i0 scores.
  { simpl. split; [|by eauto]. intros _. split; [by right|]. intros; lia. }
  cbn [set_scores_from].
  destruct (feats !! i0) as [feat|] eqn:Hfeat.
  2:{ apply lookup_ge_None in Hfeat. split; [by intros [? [=]]|].
      intros [[?|?] _]; lia. }
  pose proof (lookup_lt_Some _ _ _ Hfeat) as Hi0.
  destruct (score_feature weights feat scores) as [scores'|] eqn:Hscore.
  - rewrite IH, (score_feature_length _ _ _ _ Hscore). split.
    + intros [Hlen Hall]. split; [left; lia|].
      intros j f cws Hj Hf Hget.
      destruct (decide (j = i0)) as [->|Hne].
      * rewrite Hfeat in Hf. injection Hf as <-.
        unfold score_feature in Hscore. rewrite Hget in Hscore.
        eapply (proj1 (add_class_weights_defined _ _ _)). by rewrite Hscore.
      * apply (Hall j f cws); [lia | done | done].
    + intros [Hlen Hall]. split; [lia|].
      intros j f cws Hj. apply Hall. lia.
  - split; [by intros [? [=]]|]. intros [_ Hall].
    unfold score_feature in Hscore.
    destruct (map_get weights (feat_key feat)) as [cws|] eqn:Hget; [|done].
    destruct (Hall i0 feat cws) as [Hscan Hkeys]; [lia|done|done|].
    assert (is_Some (add_class_weights cws (feat_val feat) scores)) as [? Hsome].
    { by apply add_class_weights_defined. }
    congruence.
Qed.

Lemma add_class_weights_accumulates class_weights v scores scores' (c : nat) x :
  add_class_weights class_weights v scores = Some scores' ->
  scores !! c = Some x ->
  scores' !! c
  = Some (foldl weight_add x (slot_contributions (live_entries class_weights) v c)).
Proof.
  unfold slot_contributions.
  revert scores x. induction class_weights as [|e rest IH]; intros scores x; simpl; [done|].
  destruct (Z.leb_spec 0 (key e)) as [He|He]; [|by intros [= ->]].
  destruct (scores !! Z.to_nat (key e)) as [s|] eqn:Hs; [|done].
  intros Hrun Hx.
  destruct (decide (key e = Z.of_nat c)) as [Heq|Hne].
  - rewrite filter_cons_True by done. rewrite fmap_cons. cbn [foldl].
    apply (IH _ _ Hrun).
    assert (Z.to_nat (key e) = c) as Hc by lia.
    rewrite Hc in *. rewrite Hx in Hs. injection Hs as <-.
    apply list_lookup_insert_eq. by eapply lookup_lt_Some.
  - rewrite filter_cons_False by done.
    apply (IH _ _ Hrun). rewrite list_lookup_insert_ne by lia. done.
Qed.

Lemma contributions_cons weights feat feats c :
  contributions weights (feat :: feats) c
  = match map_get weights (feat_key feat) with
    | Some class_weights =>
        slot_contributions (live_entries class_weights) (feat_val feat) c
    | None => []
    end ++ contributions weights feats c.
Proof. done. Qed.

Lemma set_scores_from_accumulates weights feats i0 n scores scores' (c : nat) x :
  set_scores_from weights feats i0 n scores = Some scores' ->
  scores !! c = Some x ->
  scores' !! c
  = Some (foldl weight_add x (contributions weights (take n (drop i0 feats)) c)).
Proof.
  revert i0 scores x. induction n as [|n IH]; intros i0 scores x.
  { simpl. by intros [= ->]. }
  cbn [set_scores_from].
  destruct (feats !! i0) as [feat|] eqn:Hfeat; [|done].
  destruct (score_feature weights feat scores) as [mid|] eqn:Hmid; [|done].
  intros Hrun Hx. rewrite (drop_S _ _ _ Hfeat). cbn [take].
  rewrite contributions_cons, foldl_app.
  apply (IH _ _ _ Hrun). unfold score_feature in Hmid.
  destruct (map_get weights (feat_key feat)) as [cws|].
  - by apply (add_class_weights_accumulates _ _ _ _ _ _ Hmid).
  - by injection Hmid as <-.
Qed.

End ScoringAccumulates.

(** X3.  [set_scores] stays inside the memory it is given exactly when the
    feature array has [nr_feat] elements and, for each of them that has a
    vector in the table, the vector is terminated by a slot of negative
    class id and the class ids before it index the score buffer. *)
Theorem set_scores_defined (weights : PreshMap) scores (feats : list FeatureC) nr_feat :
  is_Some (set_scores weights scores feats nr_feat)
  <-> nr_feat <= Z.of_nat (length feats)
      /\ forall (j : nat) feat class_weights,
           Z.of_nat j < nr_feat -> feats !! j = Some feat ->
           map_get weights (feat_key feat) = Some class_weights ->
           is_Some (scan_length class_weights)
           /\ forall cw, cw ∈ live_entries class_weights ->
                key cw < Z.of_nat (length scores).
Proof.
  unfold set_scores. rewrite set_scores_from_defined. split.
  - intros [Hlen Hall]. split; [lia|].
    intros j feat cws Hj. apply Hall. lia.
  - intros [Hlen Hall]. split; [lia|].
    intros j feat cws Hj. apply Hall. lia.
Qed.

(** X4.  After [set_scores], the score of class [c] is its value on entry
    to which the products [weight * value] of the slots of class [c] have
    been added one by one, feature after feature and, within a vector,
    slot after slot. *)
Theorem set_scores_accumulates (weights : PreshMap) scores (feats : list FeatureC)
    nr_feat scores' (c : nat) x :
  set_scores weights scores feats nr_feat = Some scores' ->
  scores !! c = Some x ->
  scores' !! c
  = Some (foldl weight_add x
            (contributions weights (take (Z.to_nat nr_feat) feats) c)).
Proof.
  unfold set_scores. intros Hrun Hx.
  rewrite (set_scores_from_accumulates _ _ _ _ _ _ _ _ Hrun Hx).
  by rewrite drop_0.
Qed.

Lemma set_scores_accumulates_witness :
  let scores := [weight_lit 1 0; weight_lit 5 0; weight_lit 3 0; weight_lit 1 0;
                 weight_lit 7 0; weight_lit 9 0; weight_lit 1 0; weight_lit 6 0;
                 weight_lit 2 0; weight_lit 8 0] in
  let scores' := [weight_lit 1 0; weight_lit 5 0; weight_lit 3 0; weight_lit 4 0;
                  weight_lit 7 0; weight_lit 9 0; weight_lit 1 0; weight_lit 2 0;
                  weight_lit 2 0; weight_lit 8 0] in
  scores' !! 7%nat
  = Some (foldl weight_add (weight_lit 6 0)
            (contributions store_42
               (take (Z.to_nat 1) [mkFeature 42 (weight_lit 2 0)]) 7)).
Proof.
  intros scores scores'.
  apply (set_scores_accumulates store_42 scores [mkFeature 42 (weight_lit 2 0)] 1
           scores' 7 (weight_lit 6 0)).
  - vm_compute. reflexivity.
  - reflexivity.
Defined.

Section ScoringOrder.
Implicit Types (weights : PreshMap) (scores : list weight_t)
  (feats : list FeatureC) (class_weights : SparseVec).

Lemma filter_key_short (entries : list SparseArrayC) (c : nat) :
  NoDup (key <$> entries) ->
  (length (filter (fun cw => key cw = Z.of_nat c) entries) <= 1)%nat.
Proof.
  induction entries as [|e rest IH]; [simpl; lia|].
  rewrite fmap_cons. intros [Hnotin Hnodup]%NoDup_cons.
  destruct (decide (key e = Z.of_nat c)) as [Heq|Hne].
  - rewrite filter_cons_True by done.
    destruct (filter _ rest) as [|e' l] eqn:Hfilter; [simpl; lia|].
    exfalso. apply Hnotin.
    assert (e' ∈ filter (fun cw => key cw = Z.of_nat c) rest) as Hin.
    { rewrite Hfilter. apply list_elem_of_here. }
    apply list_elem_of_filter in Hin as [Hkey Hin].
    rewrite Heq, <- Hkey. by apply list_elem_of_fmap_2.
  - rewrite filter_cons_False by done. auto.
Qed.

Lemma slot_contributions_perm (l1 l2 : list SparseArrayC) v (c : nat) :
  l1 ≡ₚ l2 -> NoDup (key <$> l1) ->
  slot_contributions l1 v c = slot_contributions l2 v c.
Proof.
  intros Hperm Hnodup. unfold slot_contributions. f_equal.
  pose proof (filter_key_short l1 c Hnodup) as Hshort.
  assert (filter (fun cw => key cw = Z.of_nat c) l1
          ≡ₚ filter (fun cw => key cw = Z.of_nat c) l2) as Hfilter
    by (by rewrite Hperm).
  destruct (filter _ l1) as [|e1 [|e1' r1]]; [| |simpl in Hshort; lia].
  - by apply Permutation_nil_l in Hfilter.
  - by apply Permutation_singleton_l in Hfilter.
Qed.

Lemma add_class_weights_same_live v1 v2 v scores :
  is_Some (scan_length v1) -> is_Some (scan_length v2) ->
  live_entries v1 ≡ₚ live_entries v2 ->
  NoDup (key <$> live_entries v1) ->
  add_class_weights v1 v scores = add_class_weights v2 v scores.
Proof.
  intros Hs1 Hs2 Hperm Hnodup.
  destruct (add_class_weights v1 v scores) as [s1|] eqn:H1;
    destruct (add_class_weights v2 v scores) as [s2|] eqn:H2.
  - f_equal. apply list_eq. intros i.
    destruct (scores !! i) as [x|] eqn:Hx.
    + rewrite (add_class_weights_accumulates _ _ _ _ _ _ H1 Hx).
      rewrite (add_class_weights_accumulates _ _ _ _ _ _ H2 Hx).
      by rewrite (slot_contributions_perm _ _ _ _ Hperm Hnodup).
    + apply lookup_ge_None in Hx.
      rewrite !(proj2 (lookup_ge_None _ _)); [done| |].
      * by rewrite (add_class_weights_length _ _ _ _ H2).
      * by rewrite (add_class_weights_length _ _ _ _ H1).
  - exfalso.
    assert (is_Some (add_class_weights v2 v scores)) as [? ?]; [|congruence].
    apply add_class_weights_defined. split; [done|].
    intros cw Hcw. rewrite <- Hperm in Hcw.
    by apply (proj1 (add_class_weights_defined v1 v scores) (mk_is_Some _ _ H1)).
  - exfalso.
    assert (is_Some (add_class_weights v1 v scores)) as [? ?]; [|congruence].
    apply add_class_weights_defined. split; [done|].
    intros cw Hcw. rewrite Hperm in Hcw.
    by apply (proj1 (add_class_weights_defined v2 v scores) (mk_is_Some _ _ H2)).
  - done.
Qed.

Lemma score_feature_same_live (w1 w2 : PreshMap) feat scores :
  same_live w1 w2 ->
  score_feature w1 feat scores = score_feature w2 feat scores.
Proof.
  intros Hsame. unfold score_feature. specialize (Hsame (feat_key feat)).
  destruct (map_get w1 (feat_key feat)) as [v1|],
    (map_get w2 (feat_key feat)) as [v2|]; try done.
  destruct Hsame as (Hs1 & Hs2 & Hperm & Hnodup).
  by apply add_class_weights_same_live.
Qed.

Lemma set_scores_from_same_live (w1 w2 : PreshMap) feats i0 n scores :
  same_live w1 w2 ->
  set_scores_from w1 feats i0 n scores = set_scores_from w2 feats i0 n scores.
Proof.
  intros Hsame. revert i0 scores. induction n as [|n IH]; intros i0 scores; [done|].
  cbn [set_scores_from]. destruct (feats !! i0) as [feat|]; [|done].
  rewrite (score_feature_same_live w1 w2) by done.
  destruct (score_feature w2 feat scores); [apply IH | done].
Qed.

End ScoringOrder.

(** X5.  The scores depend on the table only through the slots before the
    terminator of each vector, and not on their order when their class ids
    are distinct: two tables with the same such slots for every key give
    the same result on every buffer and feature list. *)
Theorem set_scores_same_live (w1 w2 : PreshMap) scores (feats : list FeatureC) nr_feat :
  same_live w1 w2 ->
  set_scores w1 scores feats nr_feat = set_scores w2 scores feats nr_feat.
Proof. intros Hsame. by apply set_scores_from_same_live. Qed.

Lemma set_scores_same_live_witness :
  let w1 : PreshMap :=
    {[ 42 := Some [mkSparse 7 (weight_lit (-2) 0); mkSparse 3 (weight_lit 3 (-1));
                   mkSparse (-1) weight_zero; mkSparse 9 weight_zero] ]} in
  let w2 : PreshMap :=
    {[ 42 := Some [mkSparse 3 (weight_lit 3 (-1)); mkSparse 7 (weight_lit (-2) 0);
                   mkSparse (-2) weight_zero] ]} in
  set_scores w1 (zero_scores 10) [mkFeature 42 (weight_lit 2 0)] 1
  = set_scores w2 (zero_scores 10) [mkFeature 42 (weight_lit 2 0)] 1.
Proof.
  intros w1 w2. apply (set_scores_same_live w1 w2).
  intros k. unfold map_get, w1, w2.
  destruct (decide (k = 42)) as [->|Hne].
  - rewrite !lookup_singleton_eq. simpl.
    split; [by eexists|]. split; [by eexists|]. split.
    + apply Permutation_swap.
    + repeat constructor; rewrite ?elem_of_cons, ?elem_of_nil; lia.
  - by rewrite !lookup_singleton_ne.
Defined.

(** * More on load *)

Section LoadMore.
Implicit Types (weights : PreshMap) (records : list (feat_t * list SparseArrayC)).

(** The loop of [load] over a stream that starts with records inserts them
    and goes on with what follows them. *)
Lemma load_loop_prefix records tail fuel reader weights :
  Forall (fun record => record_ok record = true) records ->
  remaining (_Reader._fp reader) = concat (encode_record <$> records) ++ tail ->
  feof (_Reader._fp reader) = false ->
  exists fp,
    remaining fp = tail /\ feof fp = false
    /\ f_data fp = f_data (_Reader._fp reader)
    /\ load_loop (length records + fuel) reader weights
       = load_loop fuel (_Reader.mk fp (_Reader._nr_class reader))
           (foldl insert_record weights records).
Proof.
  revert reader weights.
  induction records as [|record records IH]; intros reader weights Hok Hrem Heof.
  { exists (_Reader._fp reader). destruct reader. done. }
  apply Forall_cons in Hok as [(Hid & Hlen & Hentries)%record_ok_inv Hok].
  rewrite fmap_cons in Hrem. cbn [concat] in Hrem. rewrite <- (assoc_L (++)) in Hrem.
  set (reader' := _Reader.mk (advance (length (encode_record record)) (_Reader._fp reader))
                    (_Reader._nr_class reader)).
  destruct (IH reader' (insert_record weights record)) as (fp & Htail & Hfp & Hdata & Hloop);
    [done| |done|].
  { cbn [reader' _Reader._fp]. by rewrite remaining_advance, Hrem, drop_app_length. }
  exists fp. split; [done|]. split; [done|]. split; [done|].
  cbn [length Nat.add load_loop foldl].
  rewrite (read_record _ _ _ Hid Hlen Hentries Hrem), Heof.
  change (1 =? 0) with false. cbv beta iota. exact Hloop.
Qed.

Lemma load_loop_end fuel reader weights :
  (length (remaining (_Reader._fp reader)) < 8)%nat ->
  load_loop (S fuel) reader weights = Some (Ok tt, weights).
Proof.
  intros Hshort. cbn [load_loop].
  destruct (fread_short sizeof_feat_t (_Reader._fp reader)) as (fp' & Hread & _); [done|].
  unfold _Reader.read. by rewrite Hread.
Qed.

Lemma read_entries_short n fp :
  (length (remaining fp) < 8 * n)%nat ->
  _Reader.read_entries n fp = Raise AssertionError.
Proof.
  revert fp. induction n as [|n IH]; intros fp Hshort; [lia|].
  cbn [_Reader.read_entries].
  destruct (fread sizeof_int32_t fp) as [[status1 key_bytes] fp1] eqn:Hread1.
  apply fread_status in Hread1 as [(-> & -> & Hlen1 & -> & _)|[-> _]]; [|done].
  change (1 =? 0) with false. cbv beta iota.
  destruct (fread sizeof_weight_t _) as [[status2 val_bytes] fp2] eqn:Hread2.
  apply fread_status in Hread2 as [(-> & -> & Hlen2 & -> & _)|[-> _]]; [|done].
  change (1 =? 0) with false. cbv beta iota.
  rewrite IH; [done|].
  rewrite !remaining_advance, !length_drop.
  unfold sizeof_int32_t, sizeof_weight_t in *.
  rewrite remaining_advance, length_drop in Hlen2. lia.
Qed.

(** [read] in front of a record cut after its key. *)
Lemma read_truncated self record m :
  record_ok record = true ->
  (8 <= m < length (encode_record record))%nat ->
  remaining (_Reader._fp self) = take m (encode_record record) ->
  _Reader.read self = Raise AssertionError.
Proof.
  intros (Hid & Hlen & Hentries)%record_ok_inv Hm Hrem.
  rewrite length_encode_record in Hm. unfold sizeof_feat_t, sizeof_int32_t in Hm.
  unfold encode_record in Hrem.
  rewrite take_app_ge in Hrem by (rewrite length_repr_feat_t; unfold sizeof_feat_t; lia).
  rewrite length_repr_feat_t in Hrem. unfold sizeof_feat_t in Hrem.
  destruct (fread_feat_t _ _ _ Hrem) as [Hread1 Hrem1].
  unfold _Reader.read. fread_step Hread1.
  destruct (decide (m < 12)%nat) as [Hlt|Hge].
  - destruct (fread_short sizeof_int32_t (advance sizeof_feat_t (_Reader._fp self)))
      as (fp' & Hread2 & _).
    { rewrite Hrem1, length_take, length_app, length_repr_int32.
      unfold sizeof_int32_t. lia. }
    by rewrite Hread2.
  - rewrite take_app_ge in Hrem1
      by (rewrite length_repr_int32; unfold sizeof_int32_t; lia).
    rewrite length_repr_int32 in Hrem1. unfold sizeof_int32_t in Hrem1.
    destruct (fread_int32 _ _ _ Hrem1) as [Hread2 Hrem2].
    fread_step Hread2. rewrite value_repr_int32 by done.
    destruct (Z.ltb_spec (Z.of_nat (length record.2)) 0); [lia|].
    rewrite Nat2Z.id, read_entries_short; [done|].
    rewrite Hrem2, length_take, length_encode_entries. lia.
Qed.

End LoadMore.

Lemma load_fuel_split records (reader : _Reader.t) rest :
  f_data (_Reader._fp reader) = rest ->
  (length (concat (encode_record <$> records)) <= length rest)%nat ->
  exists fuel, load_fuel reader = (length records + S fuel)%nat.
Proof.
  intros Hdata Hlen. unfold load_fuel. rewrite Hdata.
  pose proof (length_records_encoded records).
  exists (length rest - length records)%nat. lia.
Qed.

Lemma load_records (weights : PreshMap) os loc nr_class
    (records : list (feat_t * list SparseArrayC)) stray :
  os_fs os !! loc
  = Some (Regular (repr_int32 nr_class ++ concat (encode_record <$> records) ++ stray)) ->
  loc ∉ os_fopen_refused os ->
  in_int32 nr_class = true ->
  Forall (fun record => record_ok record = true) records ->
  (length stray < 8)%nat ->
  load weights os loc = Ok (nr_class, foldl insert_record weights records, os).
Proof.
  intros Hfile Hopen Hnr Hok Hstray. unfold load, load_in_place.
  rewrite (Reader_init_ok _ _ _ _ Hfile Hopen Hnr).
  cbv beta iota.
  set (reader := _Reader.mk _ _).
  destruct (load_fuel_split records reader _ eq_refl) as [fuel ->].
  { cbn [reader _Reader._fp advance f_data]. rewrite !length_app. lia. }
  destruct (load_loop_prefix records stray (S fuel) reader weights)
    as (fp & Htail & Hfp & _ & ->); [done| |done|].
  { cbn [reader _Reader._fp]. rewrite remaining_advance. unfold remaining.
    cbn [f_pos f_data f_eof]. rewrite drop_0.
    change sizeof_class_t with (length (repr_int32 nr_class)).
    by rewrite drop_app_length. }
  rewrite load_loop_end by (cbn [_Reader._fp]; by rewrite Htail).
  done.
Qed.

(** X6.  [load] on a file that holds a class count, records, and then
    fewer bytes than a feature key has, returns the class count and the
    table it was given with the records inserted one after the other; the
    stray bytes are ignored and the file system is left as it was. *)
Theorem load_decodes (weights : PreshMap) os loc nr_class
    (records : list (feat_t * list SparseArrayC)) stray :
  os_fs os !! loc
  = Some (Regular (repr_int32 nr_class ++ concat (encode_record <$> records) ++ stray)) ->
  loc ∉ os_fopen_refused os ->
  in_int32 nr_class = true ->
  Forall (fun record => record_ok record = true) records ->
  (length stray < 8)%nat ->
  load weights os loc = Ok (nr_class, foldl insert_record weights records, os).
Proof. apply load_records. Qed.

Lemma load_decodes_witness :
  load store_42 os_stray "model"
  = Ok (10, foldl insert_record store_42 [record_42; (7, [])], os_stray).
Proof.
  apply (load_decodes store_42 os_stray "model" 10 [record_42; (7, [])] [x01; x02]).
  - reflexivity.
  - apply not_elem_of_empty.
  - reflexivity.
  - repeat constructor.
  - simpl. lia.
Defined.

Lemma foldl_insert_record_last records1 records2 (weights : PreshMap) k entries :
  k ∉ records2.*1 ->
  foldl insert_record weights (records1 ++ (k, entries) :: records2) !! k
  = Some (Some (entries ++ [capacity_sentinel])).
Proof.
  intros Hnotin. rewrite foldl_app. cbn [foldl].
  rewrite foldl_insert_record_other by done.
  unfold insert_record. cbn [fst snd]. by rewrite lookup_insert_eq.
Qed.

(** X7.  [load] adds to the table it is given: an entry whose key is in no
    record of the file is kept as it was, and a key that several records
    carry ends up with the vector of the last of them, followed by the
    capacity sentinel. *)
Theorem load_lookup (weights : PreshMap) os loc nr_class
    (records : list (feat_t * list SparseArrayC)) stray :
  os_fs os !! loc
  = Some (Regular (repr_int32 nr_class ++ concat (encode_record <$> records) ++ stray)) ->
  loc ∉ os_fopen_refused os ->
  in_int32 nr_class = true ->
  Forall (fun record => record_ok record = true) records ->
  (length stray < 8)%nat ->
  exists loaded : PreshMap,
    load weights os loc = Ok (nr_class, loaded, os)
    /\ (forall k, k ∉ records.*1 -> loaded !! k = weights !! k)
    /\ (forall records1 k entries records2,
          records = records1 ++ (k, entries) :: records2 -> k ∉ records2.*1 ->
          loaded !! k = Some (Some (entries ++ [capacity_sentinel]))).
Proof.
  intros Hfile Hopen Hnr Hok Hstray. eexists.
  split; [exact (load_records _ _ _ _ _ _ Hfile Hopen Hnr Hok Hstray)|].
  split.
  - intros k Hk. by apply foldl_insert_record_other.
  - intros records1 k entries records2 -> Hk. by apply foldl_insert_record_last.
Qed.

Lemma load_lookup_witness :
  exists loaded : PreshMap,
    load store_42 os_stray "model" = Ok (10, loaded, os_stray)
    /\ (forall k, k ∉ [record_42; (7, [])].*1 -> loaded !! k = store_42 !! k)
    /\ (forall records1 k entries records2,
          [record_42; (7, [])] = records1 ++ (k, entries) :: records2 ->
          k ∉ records2.*1 ->
          loaded !! k = Some (Some (entries ++ [capacity_sentinel]))).
Proof.
  apply (load_lookup store_42 os_stray "model" 10 [record_42; (7, [])] [x01; x02]).
  - reflexivity.
  - apply not_elem_of_empty.
  - reflexivity.
  - repeat constructor.
  - simpl. lia.
Defined.

(** X8.  [load] on a file cut inside a record, after the key of the record,
    raises the assertion error of the failed read, and leaves in the table
    the records that come before the cut: the table is updated record by
    record, not all at once.  (No length field is [2^31 - 1], so that the
    [length + 1] of [read] does not overflow.) *)
Theorem load_truncated (weights : PreshMap) os loc nr_class
    (records : list (feat_t * list SparseArrayC)) record (m : nat) :
  os_fs os !! loc
  = Some (Regular (repr_int32 nr_class ++ concat (encode_record <$> records)
                     ++ take m (encode_record record))) ->
  loc ∉ os_fopen_refused os ->
  in_int32 nr_class = true ->
  Forall (fun record => record_ok record = true) (records ++ [record]) ->
  Forall (fun record : feat_t * list SparseArrayC =>
            Z.of_nat (length record.2) < 2 ^ 31 - 1) (records ++ [record]) ->
  (8 <= m < length (encode_record record))%nat ->
  load_in_place weights os loc
  = (Raise AssertionError, foldl insert_record weights records)
  /\ load weights os loc = Raise AssertionError.
Proof.
  intros Hfile Hopen Hnr [Hok Hrecord%Forall_inv]%Forall_app _ Hm.
  assert (load_in_place weights os loc
          = (Raise AssertionError, foldl insert_record weights records)) as Hload.
  { unfold load_in_place.
    rewrite (Reader_init_ok _ _ _ _ Hfile Hopen Hnr).
    cbv beta iota.
    set (reader := _Reader.mk _ _).
    destruct (load_fuel_split records reader _ eq_refl) as [fuel ->].
    { cbn [reader _Reader._fp advance f_data]. rewrite !length_app. lia. }
    destruct (load_loop_prefix records (take m (encode_record record)) (S fuel) reader
                weights) as (fp & Htail & Hfp & _ & ->); [done| |done|].
    { cbn [reader _Reader._fp]. rewrite remaining_advance. unfold remaining.
      cbn [f_pos f_data f_eof]. rewrite drop_0.
      change sizeof_class_t with (length (repr_int32 nr_class)).
      by rewrite drop_app_length. }
    cbn [load_loop]. by rewrite (read_truncated _ record m). }
  split; [exact Hload|]. unfold load. by rewrite Hload.
Qed.

Lemma load_truncated_witness :
  load_in_place store_42 os_truncated "model"
  = (Raise AssertionError, foldl insert_record store_42 [(7, [])])
  /\ load store_42 os_truncated "model" = Raise AssertionError.
Proof.
  apply (load_truncated store_42 os_truncated "model" 10 [(7, [])] record_42 21).
  - reflexivity.
  - apply not_elem_of_empty.
  - reflexivity.
  - repeat constructor.
  - repeat constructor.
  - vm_compute. split; lia.
Defined.

Lemma value_int32_short_header (content : list byte) :
  (length content < 4)%nat ->
  value_int32 (overlay (repr_int32 0) content) = le_value content.
Proof.
  intros Hlen. unfold value_int32, signed_value, overlay.
  assert (length (content ++ drop (length content) (repr_int32 0)) = 4%nat) as Hlen4.
  { rewrite length_app, length_drop, length_repr_int32. unfold sizeof_int32_t. lia. }
  rewrite Hlen4.
  change (2 ^ (8 * Z.of_nat 4 - 1)) with 2147483648.
  destruct content as [|a [|b [|c [|d content]]]]; [| | | |simpl in Hlen; lia];
    cbn [length drop app le_value];
    change (repr_int32 0) with [x00; x00; x00; x00]; cbn [drop le_value];
    change (Z_of_byte x00) with 0;
    repeat match goal with
           | |- context [Z_of_byte ?x] =>
               lazymatch goal with
               | _ : 0 <= Z_of_byte x < 256 |- _ => fail
               | _ => pose proof (Z_of_byte_range x)
               end
           end.
  all: match goal with |- (if ?u <? _ then _ else _) = _ =>
         destruct (Z.ltb_spec u 2147483648) end; lia.
Qed.

(** X9.  [load] does not check that the file holds a whole class count:
    on a file of fewer than four bytes, an empty one included, it returns
    the little-endian value of the bytes there are (0 for none) as the
    class count and the table it was given, unchanged. *)
Theorem load_short_header (weights : PreshMap) os loc content :
  os_fs os !! loc = Some (Regular content) ->
  loc ∉ os_fopen_refused os ->
  (length content < 4)%nat ->
  load weights os loc = Ok (le_value content, weights, os).
Proof.
  intros Hfile Hopen Hlen.
  unfold load, load_in_place, _Reader.__init__, path_exists, path_isdir, fopen.
  rewrite Hfile, bool_decide_eq_false_2 by done. cbn [negb].
  set (fp := fseek0 _).
  destruct (fread_short sizeof_class_t fp) as (fp' & Hread & Heof).
  { unfold remaining, fp, sizeof_class_t. simpl. rewrite drop_0. lia. }
  rewrite Hread. cbv beta iota.
  unfold load_fuel. cbn [_Reader._fp].
  rewrite load_loop_end.
  - unfold mbind, result_bind. cbn [_Reader._nr_class _Reader.__dealloc__].
    unfold remaining, fp. cbn [fseek0 f_eof f_pos f_data]. rewrite drop_0.
    by rewrite value_int32_short_header.
  - cbn [_Reader._fp]. unfold remaining. rewrite Heof. simpl. lia.
Qed.

Lemma load_short_header_witness :
  load store_42 (mkOS {[ "model"%string := Regular [x05; x01] ]} ∅ 0) "model"
  = Ok (le_value [x05; x01], store_42,
        mkOS {[ "model"%string := Regular [x05; x01] ]} ∅ 0).
Proof.
  apply (load_short_header store_42
           (mkOS {[ "model"%string := Regular [x05; x01] ]} ∅ 0) "model" [x05; x01]).
  - reflexivity.
  - apply not_elem_of_empty.
  - simpl. lia.
Defined.

(** X10.  [load] never changes the file system: when it returns, the path
    names a regular file and every file is as it was. *)
Theorem load_leaves_file_system (weights : PreshMap) os loc nr_class
    (loaded : PreshMap) os' :
  load weights os loc = Ok (nr_class, loaded, os') ->
  os' = os /\ exists content, os_fs os !! loc = Some (Regular content).
Proof.
  unfold load, load_in_place, _Reader.__init__, path_exists, path_isdir, fopen.
  destruct (os_fs os !! loc) as [[|content]|]; cbn [negb]; try done.
  case_bool_decide; [done|].
  destruct (fread _ _) as [[status bytes] fp].
  cbv beta iota.
  destruct (load_loop _ _ _) as [[[[]|e] w]|]; try done.
  cbn. intros [= _ _ <-]. eauto.
Qed.

Lemma load_leaves_file_system_witness :
  os_stray = os_stray
  /\ exists content, os_fs os_stray !! "model"%string = Some (Regular content).
Proof.
  apply (load_leaves_file_system store_42 os_stray "model" 10
           (foldl insert_record store_42 [record_42; (7, [])]) os_stray).
  vm_compute. reflexivity.
Defined.

(** * More on dump *)

Section DumpMore.
Implicit Types (weights : PreshMap) (os : OS) (loc : string)
  (items : list (feat_t * option SparseVec)).
Variable cmp : SparseArrayC -> SparseArrayC -> Z.

Lemma dump_loop_store items writer weights :
  at_end (_Writer._fp writer) ->
  Forall (fun item : feat_t * option SparseVec =>
            from_option vec_ok true item.2 = true) items ->
  dump_loop cmp items writer weights
  = Ok (_Writer.mk
          (append (concat (encode_record <$> sorted_records cmp items))
             (_Writer._fp writer))
          (_Writer._nr_class writer),
        foldl (sort_item cmp) weights items).
Proof.
  revert writer weights.
  induction items as [|[k [feat|]] items IH]; intros writer weights Hfp Hok.
  - simpl. unfold append. simpl. rewrite app_nil_r.
    destruct Hfp as [Hmode Hpos]. destruct writer as [[]]; simpl in *. by subst.
  - apply Forall_cons in Hok as [Hfeat Hok]. simpl in Hfeat.
    destruct (vec_ok_inv _ Hfeat) as (i & Hscan & Hi & _).
    destruct (scan_length_live _ _ Hscan) as [_ <-].
    cbn [dump_loop]. rewrite (write_at_end _ _ _ _ _ Hfp Hscan Hi).
    unfold mbind at 1, result_bind at 1. cbv beta iota.
    rewrite IH by (done || apply at_end_append).
    cbn [_Writer._fp _Writer._nr_class foldl]. by rewrite append_append.
  - apply Forall_cons in Hok as [_ Hok]. cbn [dump_loop foldl].
    by rewrite IH.
Qed.

Lemma dump_result weights os nr_class loc :
  in_int32 nr_class = true ->
  path_isdir os loc = false ->
  loc ∉ os_fopen_refused os ->
  os_fclose_status os = 0 ->
  store_ok weights = true ->
  dump cmp weights os nr_class loc
  = Ok (foldl (sort_item cmp) weights (map_to_list weights),
        mkOS (<[loc := Regular (repr_int32 nr_class
                 ++ concat (encode_record <$> sorted_records cmp (map_to_list weights)))]>
                (os_fs os))
          (os_fopen_refused os) (os_fclose_status os)).
Proof.
  intros Hnr Hdir Hopen Hclose Hok. unfold dump.
  rewrite Writer_init_ok by done.
  unfold mbind at 1, result_bind at 1. cbv beta iota.
  rewrite dump_loop_store; [|apply at_end_append|].
  2:{ apply Forall_forall. intros [k v] Hkv%elem_of_map_to_list.
      by apply (store_ok_inv weights k v). }
  unfold mbind at 1, result_bind at 1. cbv beta iota.
  unfold _Writer.close, fclose. cbn [os_fclose_status]. rewrite Hclose.
  cbn. by rewrite insert_insert_eq.
Qed.

Lemma foldl_sort_item_other items weights k :
  k ∉ items.*1 -> foldl (sort_item cmp) weights items !! k = weights !! k.
Proof.
  revert weights. induction items as [|[k' v] items IH]; intros weights; [done|].
  rewrite fmap_cons. intros [Hne Hnotin]%not_elem_of_cons.
  cbn [foldl]. rewrite IH by done. unfold sort_item. cbn [fst snd] in *.
  destruct v; [by rewrite lookup_insert_ne | done].
Qed.

Lemma foldl_sort_item_lookup items weights k v :
  NoDup items.*1 -> (k, v) ∈ items ->
  foldl (sort_item cmp) weights items !! k
  = match v with
    | Some feat => Some (Some (sorted_in_place cmp feat))
    | None => weights !! k
    end.
Proof.
  revert weights. induction items as [|item items IH]; intros weights.
  { by intros _ ?%elem_of_nil. }
  rewrite fmap_cons. intros [Hnotin Hnodup]%NoDup_cons [<-|Hin]%elem_of_cons.
  - cbn [foldl]. rewrite foldl_sort_item_other by done.
    unfold sort_item. cbn [fst snd].
    destruct v; [by rewrite lookup_insert_eq | done].
  - cbn [foldl]. rewrite IH by done.
    destruct v as [feat|]; [done|].
    unfold sort_item. destruct item as [k' [feat'|]]; cbn [fst snd] in *; [|done].
    rewrite lookup_insert_ne; [done|].
    intros ->. apply Hnotin. by apply (list_elem_of_fmap_2 fst) in Hin.
Qed.

Lemma scan_length_terminator feat i :
  scan_length feat = Some i ->
  exists t rest, drop i feat = t :: rest /\ key t < 0.
Proof.
  revert i. induction feat as [|cw feat IH]; intros i; simpl; [done|].
  destruct (Z.leb_spec 0 (key cw)).
  - destruct (scan_length feat) as [j|]; [|done].
    intros [= <-]. simpl. by apply IH.
  - intros [= <-]. simpl. eauto.
Qed.

Lemma live_entries_terminated (entries : list SparseArrayC) t rest :
  Forall (fun cw => 0 <= key cw) entries -> key t < 0 ->
  scan_length (entries ++ t :: rest) = Some (length entries)
  /\ live_entries (entries ++ t :: rest) = entries.
Proof.
  intros Hall Ht. induction Hall as [|cw entries Hcw _ [IH1 IH2]]; simpl.
  - by rewrite (proj2 (Z.leb_gt _ _) Ht).
  - by rewrite (proj2 (Z.leb_le _ _) Hcw), IH1, IH2.
Qed.

Lemma sorted_in_place_live feat i :
  scan_length feat = Some i ->
  scan_length (sorted_in_place cmp feat) = Some i
  /\ live_entries (sorted_in_place cmp feat) = qsort cmp (live_entries feat).
Proof.
  intros Hscan. unfold sorted_in_place.
  destruct (scan_length_live _ _ Hscan) as [_ Hlen].
  destruct (scan_length_terminator _ _ Hscan) as (t & rest & Hdrop & Ht).
  rewrite Hlen, Hdrop.
  destruct (live_entries_terminated (qsort cmp (live_entries feat)) t rest) as [-> ->];
    [|done|].
  - rewrite qsort_perm. apply live_entries_nonneg.
  - by rewrite qsort_length, Hlen.
Qed.

Lemma length_sorted_records_encoded items :
  length (concat (encode_record <$> sorted_records cmp items))
  = sum_list ((fun item : feat_t * option SparseVec =>
                 match item.2 with
                 | Some feat => 12 + 8 * length (live_entries feat)
                 | None => 0
                 end)%nat <$> items).
Proof.
  induction items as [|[k [feat|]] items IH]; [done| |done].
  change (sorted_records cmp ((k, Some feat) :: items))
    with ((k, qsort cmp (live_entries feat)) :: sorted_records cmp items).
  rewrite !fmap_cons. cbn [concat sum_list fst snd].
  rewrite length_app, IH, length_encode_record. cbn [snd].
  rewrite qsort_length. unfold sizeof_feat_t, sizeof_int32_t, id. lia.
Qed.

(** X11.  [dump] rearranges the vectors of the table it writes, and does
    nothing else to the table: afterwards the slots before the terminator
    of every vector are the same slots, each once, in the order [qsort] has
    given them, the terminator and the slots after it are untouched, and
    null entries and the set of keys are as before. *)
Theorem dump_rearranges_in_place weights os nr_class loc :
  in_int32 nr_class = true ->
  path_isdir os loc = false ->
  loc ∉ os_fopen_refused os ->
  os_fclose_status os = 0 ->
  store_ok weights = true ->
  exists (weights' : PreshMap) os',
    dump cmp weights os nr_class loc = Ok (weights', os')
    /\ forall k,
         match weights !! k with
         | Some (Some feat) =>
             exists arranged,
               weights' !! k = Some (Some (arranged ++ drop (length arranged) feat))
               /\ arranged = qsort cmp (live_entries feat)
               /\ arranged ≡ₚ live_entries feat
         | other => weights' !! k = other
         end.
Proof.
  intros Hnr Hdir Hopen Hclose Hok. eexists _, _.
  split; [by apply dump_result|].
  intros k. destruct (weights !! k) as [[feat|]|] eqn:Hk.
  - exists (qsort cmp (live_entries feat)).
    split; [|split; [done | apply qsort_perm]].
    rewrite (foldl_sort_item_lookup _ _ k (Some feat));
      [|apply NoDup_fst_map_to_list | by apply elem_of_map_to_list].
    unfold sorted_in_place. by rewrite qsort_length.
  - rewrite (foldl_sort_item_lookup _ _ k None);
      [done | apply NoDup_fst_map_to_list | by apply elem_of_map_to_list].
  - rewrite foldl_sort_item_other; [done|].
    intros ([k' v] & Hkk & Hin%elem_of_map_to_list)%list_elem_of_fmap.
    simpl in Hkk. subst k'. unfold feat_t in *. congruence.
Qed.

(** X12.  The file [dump] writes has four bytes for the class count and,
    for every vector that is not null, twelve bytes and eight more for each
    slot before its terminator. *)
Theorem dump_file_size weights os nr_class loc :
  in_int32 nr_class = true ->
  path_isdir os loc = false ->
  loc ∉ os_fopen_refused os ->
  os_fclose_status os = 0 ->
  store_ok weights = true ->
  exists (weights' : PreshMap) os' content,
    dump cmp weights os nr_class loc = Ok (weights', os')
    /\ os_fs os' !! loc = Some (Regular content)
    /\ length content
       = (4 + sum_list ((fun item : feat_t * option SparseVec =>
                           match item.2 with
                           | Some feat => 12 + 8 * length (live_entries feat)
                           | None => 0
                           end) <$> map_to_list weights))%nat.
Proof.
  intros Hnr Hdir Hopen Hclose Hok. eexists _, _, _.
  split; [by apply dump_result|]. cbn [os_fs].
  split; [apply lookup_insert_eq|].
  by rewrite length_app, length_repr_int32, length_sorted_records_encoded.
Qed.

End DumpMore.

Lemma dump_rearranges_in_place_witness :
  exists (weights' : PreshMap) os',
    dump cmp_equal store_example os_example 10 "model" = Ok (weights', os')
    /\ forall k,
         match store_example !! k with
         | Some (Some feat) =>
             exists arranged,
               weights' !! k = Some (Some (arranged ++ drop (length arranged) feat))
               /\ arranged = qsort cmp_equal (live_entries feat)
               /\ arranged ≡ₚ live_entries feat
         | other => weights' !! k = other
         end.
Proof.
  apply (dump_rearranges_in_place cmp_equal store_example os_example 10 "model").
  - reflexivity.
  - reflexivity.
  - apply not_elem_of_empty.
  - reflexivity.
  - vm_compute. reflexivity.
Defined.

Lemma dump_file_size_witness :
  exists (weights' : PreshMap) os' content,
    dump SparseArray_cmp store_example os_example 10 "model" = Ok (weights', os')
    /\ os_fs os' !! "model"%string = Some (Regular content)
    /\ length content
       = (4 + sum_list ((fun item : feat_t * option SparseVec =>
                           match item.2 with
                           | Some feat => 12 + 8 * length (live_entries feat)
                           | None => 0
                           end) <$> map_to_list store_example))%nat.
Proof.
  apply (dump_file_size SparseArray_cmp store_example os_example 10 "model").
  - reflexivity.
  - reflexivity.
  - apply not_elem_of_empty.
  - reflexivity.
  - vm_compute. reflexivity.
Defined.

Section DumpFrame.
Variable cmp : SparseArrayC -> SparseArrayC -> Z.

Lemma _write_inv value fp fp' :
  at_end fp -> _write value fp = Ok fp' -> fp' = append value fp.
Proof. intros Hfp. rewrite _write_at_end by done. by intros [= <-]. Qed.

(** A writer goes on writing at the end of the same file. *)
Lemma write_extends self feat_id feat status self' feat' :
  at_end (_Writer._fp self) ->
  _Writer.write cmp self feat_id feat = Ok (status, self', feat') ->
  at_end (_Writer._fp self')
  /\ f_loc (_Writer._fp self') = f_loc (_Writer._fp self)
  /\ exists bytes, f_data (_Writer._fp self') = f_data (_Writer._fp self) ++ bytes.
Proof.
  intros Hfp. destruct feat as [feat|].
  - unfold _Writer.write. rewrite _write_at_end by done.
    unfold mbind at 1, result_bind at 1. cbv beta iota.
    destruct (scan_length feat) as [i|] eqn:Hscan; [|done].
    destruct (in_int32 (Z.of_nat i)) eqn:Hi; [|done].
    intros Hwrite.
    pose proof (write_at_end cmp self feat_id feat i Hfp Hscan Hi) as Hspec.
    unfold _Writer.write in Hspec. rewrite _write_at_end, Hscan, Hi in Hspec by done.
    unfold mbind at 1, result_bind at 1 in Hspec. cbv beta iota in Hspec.
    rewrite Hspec in Hwrite. injection Hwrite as _ <- _.
    cbn [_Writer._fp]. split; [apply at_end_append|]. split; [done|]. by eexists.
  - intros [= _ <- _]. split; [done|]. split; [done|].
    exists []. by rewrite app_nil_r.
Qed.

Lemma dump_loop_extends items writer (weights : PreshMap) writer' weights' :
  at_end (_Writer._fp writer) ->
  dump_loop cmp items writer weights = Ok (writer', weights') ->
  at_end (_Writer._fp writer')
  /\ f_loc (_Writer._fp writer') = f_loc (_Writer._fp writer)
  /\ exists bytes, f_data (_Writer._fp writer') = f_data (_Writer._fp writer) ++ bytes.
Proof.
  revert writer weights.
  induction items as [|[k [feat|]] items IH]; intros writer weights Hfp; cbn [dump_loop].
  - intros [= <- _]. split; [done|]. split; [done|]. exists []. by rewrite app_nil_r.
  - destruct (_Writer.write cmp writer k (Some feat)) as [[[status mid] feat']|] eqn:Hwrite;
      [|done].
    unfold mbind at 1, result_bind at 1. cbv beta iota.
    destruct (write_extends _ _ _ _ _ _ Hfp Hwrite) as (Hmid & Hloc & bytes1 & Hdata).
    intros (Hend & Hloc' & bytes2 & Hdata')%IH; [|done].
    split; [done|]. split; [congruence|].
    exists (bytes1 ++ bytes2). by rewrite Hdata', Hdata, (assoc_L (++)).
  - by apply IH.
Qed.

(** X13.  When [dump] returns, the path names a regular file that starts
    with the four bytes of the class count, and every other path of the
    file system is as it was. *)
Theorem dump_leaves_other_files (weights : PreshMap) os nr_class loc
    (weights' : PreshMap) os' :
  dump cmp weights os nr_class loc = Ok (weights', os') ->
  (exists content, os_fs os' !! loc = Some (Regular (repr_int32 nr_class ++ content)))
  /\ (forall loc', loc' <> loc -> os_fs os' !! loc' = os_fs os !! loc')
  /\ os_fopen_refused os' = os_fopen_refused os
  /\ os_fclose_status os' = os_fclose_status os.
Proof.
  unfold dump.
  destruct (_Writer.__init__ os loc nr_class) as [[writer os1]|] eqn:Hinit; [|done].
  unfold mbind at 1, result_bind at 1. cbv beta iota.
  destruct (dump_loop cmp _ writer weights) as [[writer' w']|] eqn:Hloop; [|done].
  unfold mbind at 1, result_bind at 1. cbv beta iota.
  destruct (_Writer.close writer' os1) as [os2|] eqn:Hclose; [|done].
  unfold mbind, result_bind. intros [= _ <-].
  assert (at_end (_Writer._fp writer)
          /\ f_loc (_Writer._fp writer) = loc
          /\ f_data (_Writer._fp writer) = repr_int32 nr_class
          /\ os1 = mkOS (<[loc := Regular []]> (os_fs os)) (os_fopen_refused os)
                     (os_fclose_status os)) as (Hfp & Hloc & Hdata & ->).
  { revert Hinit. unfold _Writer.__init__, fopen.
    destruct (path_exists os loc && path_isdir os loc); [done|].
    case_bool_decide; [done|].
    destruct (os_fs os !! loc) as [[|content]|]; [done| |];
      (destruct (in_int32 nr_class); [|done]);
      (rewrite _write_at_end by done); by intros [= <- <-]. }
  destruct (dump_loop_extends _ _ _ _ _ Hfp Hloop) as (Hend & Hloc' & bytes & Hdata').
  revert Hclose. unfold _Writer.close, fclose. cbn [os_fclose_status].
  destruct Hend as [Hmode _]. rewrite Hmode.
  destruct (os_fclose_status os =? 0) eqn:Hstatus; [|by rewrite Hstatus].
  cbn. intros [= <-]. cbn [os_fs os_fopen_refused os_fclose_status].
  rewrite Hloc', Hloc, Hdata', Hdata. split; [|split; [|done]].
  - exists bytes. by rewrite lookup_insert_eq.
  - intros loc' Hne. by rewrite !lookup_insert_ne.
Qed.

End DumpFrame.

Lemma dump_leaves_other_files_witness :
  let os' :=
    mkOS {[ "model"%string :=
              Regular (repr_int32 10
                         ++ concat (encode_record
                                      <$> sorted_records SparseArray_cmp
                                            (map_to_list store_example))) ]} ∅ 0 in
  (exists content,
     os_fs os' !! "model"%string = Some (Regular (repr_int32 10 ++ content)))
  /\ (forall loc', loc' <> "model"%string -> os_fs os' !! loc' = os_fs os_example !! loc')
  /\ os_fopen_refused os' = os_fopen_refused os_example
  /\ os_fclose_status os' = os_fclose_status os_example.
Proof.
  intros os'.
  apply (dump_leaves_other_files SparseArray_cmp store_example os_example 10 "model"
           (foldl (sort_item SparseArray_cmp) store_example (map_to_list store_example))
           os').
  vm_compute. reflexivity.
Defined.

(** * Scores after dump and load *)

(** X14.  Saving and loading does not change what the model computes: for
    a table whose vectors have distinct class ids, the table [load]
    reconstructs from the file [dump] wrote, and the table [dump] leaves in
    memory, give on every buffer and feature list the scores of the
    original table. *)
Theorem dump_load_preserves_scores cmp (weights : PreshMap) os nr_class loc :
  in_int32 nr_class = true ->
  path_isdir os loc = false ->
  loc ∉ os_fopen_refused os ->
  os_fclose_status os = 0 ->
  store_ok weights = true ->
  (forall k feat, map_get weights k = Some feat ->
     NoDup (key <$> live_entries feat)) ->
  exists (weights' : PreshMap) os' (loaded : PreshMap),
    dump cmp weights os nr_class loc = Ok (weights', os')
    /\ load ∅ os' loc = Ok (nr_class, loaded, os')
    /\ forall scores (feats : list FeatureC) nr_feat,
         set_scores loaded scores feats nr_feat
         = set_scores weights scores feats nr_feat
         /\ set_scores weights' scores feats nr_feat
            = set_scores weights scores feats nr_feat.
Proof.
  intros Hnr Hdir Hopen Hclose Hok Hdistinct.
  set (records := sorted_records cmp (map_to_list weights)).
  eexists _, _, (foldl insert_record ∅ records).
  split; [by apply dump_result|]. split.
  { apply (load_records _ _ _ _ records []); cbn [os_fs]; try done.
    - by rewrite app_nil_r, lookup_insert_eq.
    - by apply sorted_records_ok.
    - simpl. lia. }
  assert (same_live weights (foldl insert_record ∅ records)) as Hloaded.
  { intros k. pose proof (Hdistinct k) as Hnodup. unfold map_get in *.
    destruct (weights !! k) as [[feat|]|] eqn:Hk.
    - rewrite (foldl_insert_record_lookup records ∅ k (qsort cmp (live_entries feat))).
      + destruct (store_ok_inv _ _ _ Hok Hk) as [_ Hfeat].
        destruct (vec_ok_inv _ Hfeat) as (i & Hscan & _ & _).
        destruct (scan_length_sentinel (qsort cmp (live_entries feat))) as [Hs Hl].
        { rewrite qsort_perm. apply live_entries_nonneg. }
        split; [by eexists|]. split; [by eexists|].
        rewrite Hl. split; [by rewrite qsort_perm | auto].
      + apply sorted_records_NoDup, NoDup_fst_map_to_list.
      + apply elem_of_sorted_records. exists feat.
        split; [by apply elem_of_map_to_list | done].
    - rewrite foldl_insert_record_other; [done|].
      intros ([k' entries] & Hkk & Hin)%list_elem_of_fmap. simpl in Hkk. subst k'.
      apply elem_of_sorted_records in Hin as (feat & Hin%elem_of_map_to_list & _).
      unfold feat_t in *. congruence.
    - rewrite foldl_insert_record_other; [done|].
      intros ([k' entries] & Hkk & Hin)%list_elem_of_fmap. simpl in Hkk. subst k'.
      apply elem_of_sorted_records in Hin as (feat & Hin%elem_of_map_to_list & _).
      unfold feat_t in *. congruence. }
  assert (same_live weights (foldl (sort_item cmp) weights (map_to_list weights)))
    as Hsorted.
  { intros k. pose proof (Hdistinct k) as Hnodup. unfold map_get in *.
    destruct (weights !! k) as [[feat|]|] eqn:Hk.
    - rewrite (foldl_sort_item_lookup cmp _ _ k (Some feat));
        [|apply NoDup_fst_map_to_list | by apply elem_of_map_to_list].
      destruct (store_ok_inv _ _ _ Hok Hk) as [_ Hfeat].
      destruct (vec_ok_inv _ Hfeat) as (i & Hscan & _ & _).
      destruct (sorted_in_place_live cmp _ _ Hscan) as [Hs Hl].
      split; [by eexists|]. split; [by eexists|].
      rewrite Hl. split; [by rewrite qsort_perm | auto].
    - by rewrite (foldl_sort_item_lookup cmp _ _ k None);
        [rewrite Hk | apply NoDup_fst_map_to_list | apply elem_of_map_to_list].
    - rewrite foldl_sort_item_other; [by rewrite Hk|].
      intros ([k' v] & Hkk & Hin%elem_of_map_to_list)%list_elem_of_fmap.
      simpl in Hkk. subst k'. unfold feat_t in *. congruence. }
  intros scores feats nr_feat. unfold set_scores. split; symmetry.
  - by apply set_scores_from_same_live.
  - by apply set_scores_from_same_live.
Qed.

Lemma dump_load_preserves_scores_witness :
  exists (weights' : PreshMap) os' (loaded : PreshMap),
    dump SparseArray_cmp store_example os_example 10 "model" = Ok (weights', os')
    /\ load ∅ os' "model" = Ok (10, loaded, os')
    /\ forall scores (feats : list FeatureC) nr_feat,
         set_scores loaded scores feats nr_feat
         = set_scores store_example scores feats nr_feat
         /\ set_scores weights' scores feats nr_feat
            = set_scores store_example scores feats nr_feat.
Proof.
  apply (dump_load_preserves_scores SparseArray_cmp store_example os_example 10 "model").
  - reflexivity.
  - reflexivity.
  - apply not_elem_of_empty.
  - reflexivity.
  - vm_compute. reflexivity.
  - intros k feat. unfold map_get, store_example.
    destruct (decide (k = 42)) as [->|H42].
    { rewrite lookup_insert_eq. intros [= <-]. simpl.
      repeat constructor; rewrite ?elem_of_cons, ?elem_of_nil; lia. }
    rewrite lookup_insert_ne by done.
    destruct (decide (k = 5)) as [->|H5].
    { by rewrite lookup_insert_eq. }
    rewrite lookup_insert_ne by done.
    destruct (decide (k = 6)) as [->|H6].
    { rewrite lookup_singleton_eq. intros [= <-]. simpl. constructor. }
    by rewrite lookup_singleton_ne.
Defined.

(** * More on backprop *)

Section BackpropMore.
Context {LayerC : Type}.
Variable Matrix_iaddC : list weight_t -> list weight_t -> weight_t -> list weight_t.
Variable Matrix_iadd_outerC :
  list (list weight_t) -> list weight_t -> list weight_t -> list (list weight_t).
Variable d_activate : list weight_t -> LayerC -> list weight_t -> list weight_t.

(** One iteration of the loop: the gradient of layer [i] is updated from
    its delta and signal, the delta of the layer below is recomputed, and
    nothing else changes. *)
Lemma backprop_layer_inv (layers : list LayerC) i eg eg' :
  backprop_layer Matrix_iaddC Matrix_iadd_outerC d_activate layers i eg = Some eg' ->
  exists g delta signal,
    eg_grad eg !! i = Some g /\ eg_deltas eg !! i = Some delta
    /\ eg_signal eg !! i = Some signal
    /\ eg_grad eg'
       = <[i := mkGradient (Matrix_iadd_outerC (grad_W g) delta signal)
                  (Matrix_iaddC (grad_b g) delta (weight_lit 1 0))]> (eg_grad eg)
    /\ eg_scores eg' = eg_scores eg /\ eg_target eg' = eg_target eg
    /\ eg_signal eg' = eg_signal eg /\ eg_nr_class eg' = eg_nr_class eg
    /\ match i with
       | S j =>
           exists l below,
             layers !! i = Some l /\ eg_deltas eg !! j = Some below
             /\ eg_deltas eg' = <[j := d_activate below l signal]> (eg_deltas eg)
       | O => eg_deltas eg' = eg_deltas eg
       end.
Proof.
  unfold backprop_layer.
  destruct (eg_grad eg !! i) as [g|]; [|done].
  destruct (eg_deltas eg !! i) as [delta|]; [|done].
  destruct (eg_signal eg !! i) as [signal|]; [|done].
  cbn [mbind option_bind]. destruct i as [|j].
  - intros [= <-]. by exists g, delta, signal.
  - destruct (layers !! S j) as [l|]; [|done].
    destruct (eg_deltas eg !! j) as [below|]; [|done].
    cbn [mbind option_bind]. intros [= <-].
    exists g, delta, signal. repeat split; try done. by exists l, below.
Qed.

(** What the iterations [n, n - 1, ..., 0] leave: the buffers of the layers
    above [n] and the delta of layer [n] itself are not touched, and every
    layer [i <= n] has had its gradient updated once, from the delta the
    loop leaves for it. *)
Lemma backprop_layers_inv (layers : list LayerC) n eg eg' :
  backprop_layers Matrix_iaddC Matrix_iadd_outerC d_activate layers n eg = Some eg' ->
  eg_scores eg' = eg_scores eg /\ eg_target eg' = eg_target eg
  /\ eg_signal eg' = eg_signal eg /\ eg_nr_class eg' = eg_nr_class eg
  /\ length (eg_deltas eg') = length (eg_deltas eg)
  /\ length (eg_grad eg') = length (eg_grad eg)
  /\ (forall j, (n <= j)%nat -> eg_deltas eg' !! j = eg_deltas eg !! j)
  /\ (forall j, (n < j)%nat -> eg_grad eg' !! j = eg_grad eg !! j)
  /\ (forall i, (i <= n)%nat ->
        exists g delta signal,
          eg_grad eg !! i = Some g /\ eg_deltas eg' !! i = Some delta
          /\ eg_signal eg !! i = Some signal
          /\ eg_grad eg' !! i
             = Some (mkGradient (Matrix_iadd_outerC (grad_W g) delta signal)
                       (Matrix_iaddC (grad_b g) delta (weight_lit 1 0)))).
Proof.
  revert eg eg'. induction n as [|n IH]; intros eg eg'; cbn [backprop_layers].
  - destruct (backprop_layer _ _ _ layers 0 eg) as [eg1|] eqn:Hlayer; [|done].
    cbn [mbind option_bind]. intros [= <-].
    destruct (backprop_layer_inv _ _ _ _ Hlayer)
      as (g & delta & signal & Hg & Hd & Hs & Hgrad & ? & ? & ? & ? & Hdeltas).
    rewrite Hgrad, Hdeltas, length_insert. repeat split; try done.
    + intros j Hj. by rewrite list_lookup_insert_ne by lia.
    + intros i Hi. assert (i = 0)%nat as -> by lia.
      exists g, delta, signal. repeat split; try done.
      apply list_lookup_insert_eq. by eapply lookup_lt_Some.
  - destruct (backprop_layer _ _ _ layers (S n) eg) as [eg1|] eqn:Hlayer; [|done].
    cbn [mbind option_bind]. intros Hrest.
    destruct (backprop_layer_inv _ _ _ _ Hlayer)
      as (g & delta & signal & Hg & Hd & Hs & Hgrad & Hsc & Htg & Hsg & Hnr
          & l & below & Hl & Hbelow & Hdeltas).
    destruct (IH _ _ Hrest)
      as (Hsc' & Htg' & Hsg' & Hnr' & Hlend & Hleng & Hdkeep & Hgkeep & Hgrads).
    rewrite Hsc', Htg', Hsg', Hnr', Hlend, Hleng, Hgrad, Hdeltas, !length_insert.
    repeat split; try done.
    + intros j Hj. rewrite Hdkeep, Hdeltas by lia.
      by rewrite list_lookup_insert_ne by lia.
    + intros j Hj. rewrite Hgkeep, Hgrad by lia.
      by rewrite list_lookup_insert_ne by lia.
    + intros i Hi. destruct (decide (i = S n)) as [->|Hne].
      * exists g, delta, signal. split; [done|]. split.
        { rewrite Hdkeep, Hdeltas by lia. by rewrite list_lookup_insert_ne by lia. }
        split; [done|]. rewrite Hgkeep, Hgrad by lia.
        apply list_lookup_insert_eq. by eapply lookup_lt_Some.
      * destruct (Hgrads i) as (g' & delta' & signal' & Hg' & Hd' & Hs' & Hgrad');
          [lia|].
        exists g', delta', signal'. rewrite Hgrad in Hg'.
        rewrite list_lookup_insert_ne in Hg' by lia. rewrite Hsg in Hs'. done.
Qed.

Lemma backprop_terminal_inv depth eg eg1 :
  backprop_terminal depth eg = Some eg1 ->
  exists dest,
    eg_deltas eg !! depth = Some dest
    /\ 0 <= eg_nr_class eg <= Z.of_nat (length dest)
    /\ eg_nr_class eg <= Z.of_nat (length (eg_scores eg))
    /\ eg_deltas eg1
       = <[depth := Matrix_isubC
                      (take (Z.to_nat (eg_nr_class eg)) (eg_scores eg)
                         ++ drop (Z.to_nat (eg_nr_class eg)) dest)
                      (eg_target eg)]> (eg_deltas eg)
    /\ eg_scores eg1 = eg_scores eg /\ eg_target eg1 = eg_target eg
    /\ eg_signal eg1 = eg_signal eg /\ eg_grad eg1 = eg_grad eg
    /\ eg_nr_class eg1 = eg_nr_class eg.
Proof.
  unfold backprop_terminal.
  destruct (eg_deltas eg !! depth) as [dest|]; [|done]. cbn [mbind option_bind].
  unfold memcpy. case_bool_decide as Hn; [|done]. cbn [mbind option_bind].
  intros [= <-]. exists dest. repeat split; try done; lia.
Qed.

(** X15.  The loop over the layers never writes the delta of the top
    layer: when [backprop] returns, [deltas[depth]] is what the first two
    statements put there.  The scores, the target, the signals, the class
    count and the number of delta and gradient buffers are as on entry. *)
Theorem backprop_keeps_terminal_delta depth (layers : list LayerC) eg eg' :
  backprop Matrix_iaddC Matrix_iadd_outerC d_activate depth layers eg = Some eg' ->
  (exists eg1,
     backprop_terminal depth eg = Some eg1
     /\ is_Some (eg_deltas eg1 !! depth)
     /\ eg_deltas eg' !! depth = eg_deltas eg1 !! depth)
  /\ eg_scores eg' = eg_scores eg /\ eg_target eg' = eg_target eg
  /\ eg_signal eg' = eg_signal eg /\ eg_nr_class eg' = eg_nr_class eg
  /\ length (eg_deltas eg') = length (eg_deltas eg)
  /\ length (eg_grad eg') = length (eg_grad eg).
Proof.
  unfold backprop.
  destruct (backprop_terminal depth eg) as [eg1|] eqn:Hterminal; [|done].
  cbn [mbind option_bind]. intros Hloop.
  destruct (backprop_terminal_inv _ _ _ Hterminal)
    as (dest & Hdest & Hn1 & Hn2 & Hdeltas & Hsc & Htg & Hsg & Hgr & Hnr).
  destruct (backprop_layers_inv _ _ _ _ Hloop)
    as (Hsc' & Htg' & Hsg' & Hnr' & Hlend & Hleng & Hdkeep & _).
  rewrite Hsc', Htg', Hsg', Hnr', Hlend, Hleng, Hsc, Htg, Hsg, Hnr, Hgr.
  split.
  - exists eg1. split; [done|]. split; [|by apply Hdkeep].
    rewrite Hdeltas. apply lookup_lt_is_Some. rewrite length_insert.
    by eapply lookup_lt_Some.
  - rewrite Hdeltas, length_insert. done.
Qed.

(** X16.  [backprop] updates the gradient of every layer [i <= depth]
    exactly once, from the accumulators on entry, the signal of the layer
    and the delta that [backprop] leaves for the layer; the gradients of
    layers above [depth] are not touched. *)
Theorem backprop_gradients depth (layers : list LayerC) eg eg' :
  backprop Matrix_iaddC Matrix_iadd_outerC d_activate depth layers eg = Some eg' ->
  (forall i, (i <= depth)%nat ->
     exists g delta signal,
       eg_grad eg !! i = Some g /\ eg_deltas eg' !! i = Some delta
       /\ eg_signal eg !! i = Some signal
       /\ eg_grad eg' !! i
          = Some (mkGradient (Matrix_iadd_outerC (grad_W g) delta signal)
                    (Matrix_iaddC (grad_b g) delta (weight_lit 1 0))))
  /\ (forall j, (depth < j)%nat -> eg_grad eg' !! j = eg_grad eg !! j).
Proof.
  unfold backprop.
  destruct (backprop_terminal depth eg) as [eg1|] eqn:Hterminal; [|done].
  cbn [mbind option_bind]. intros Hloop.
  destruct (backprop_terminal_inv _ _ _ Hterminal)
    as (dest & Hdest & Hn1 & Hn2 & Hdeltas & Hsc & Htg & Hsg & Hgr & Hnr).
  destruct (backprop_layers_inv _ _ _ _ Hloop)
    as (_ & _ & _ & _ & _ & _ & _ & Hgkeep & Hgrads).
  rewrite Hgr, Hsg in *. split; [|done].
  intros i Hi. apply Hgrads. done.
Qed.

End BackpropMore.

Lemma backprop_keeps_terminal_delta_witness :
  (exists eg1,
     backprop_terminal 1 example_eg = Some eg1
     /\ is_Some (eg_deltas eg1 !! 1%nat)
     /\ eg_deltas example_eg_after !! 1%nat = eg_deltas eg1 !! 1%nat)
  /\ eg_scores example_eg_after = eg_scores example_eg
  /\ eg_target example_eg_after = eg_target example_eg
  /\ eg_signal example_eg_after = eg_signal example_eg
  /\ eg_nr_class example_eg_after = eg_nr_class example_eg
  /\ length (eg_deltas example_eg_after) = length (eg_deltas example_eg)
  /\ length (eg_grad example_eg_after) = length (eg_grad example_eg).
Proof.
  apply (backprop_keeps_terminal_delta example_iaddC example_iadd_outerC
           example_d_activate 1 [tt; tt] example_eg example_eg_after).
  vm_compute. reflexivity.
Defined.

Lemma backprop_gradients_witness :
  (forall i, (i <= 1)%nat ->
     exists g delta signal,
       eg_grad example_eg !! i = Some g /\ eg_deltas example_eg_after !! i = Some delta
       /\ eg_signal example_eg !! i = Some signal
       /\ eg_grad example_eg_after !! i
          = Some (mkGradient (example_iadd_outerC (grad_W g) delta signal)
                    (example_iaddC (grad_b g) delta (weight_lit 1 0))))
  /\ (forall j, (1 < j)%nat -> eg_grad example_eg_after !! j = eg_grad example_eg !! j).
Proof.
  apply (backprop_gradients example_iaddC example_iadd_outerC example_d_activate
           1 [tt; tt] example_eg example_eg_after).
  vm_compute. reflexivity.
Defined.

(** * Outcomes of read and dump *)

(** X18.  [read] reports the end of the stream exactly when fewer bytes
    than a feature key remain, setting the end-of-file indicator; when it
    returns from a longer stream it returns a record, of which it has
    consumed the twelve bytes of key and length and eight bytes for each
    slot, and no byte more. *)
Theorem read_outcomes (self : _Reader.t) :
  ((length (remaining (_Reader._fp self)) < 8)%nat ->
   exists self',
     _Reader.read self = Ok (0, None, self') /\ feof (_Reader._fp self') = true)
  /\ ((8 <= length (remaining (_Reader._fp self)))%nat ->
      forall status out self',
        _Reader.read self = Ok (status, out, self') ->
        exists feat_id feat,
          out = Some (feat_id, feat)
          /\ _Reader._fp self'
             = advance (12 + 8 * (length feat - 1)) (_Reader._fp self)
          /\ _Reader._nr_class self' = _Reader._nr_class self).
Proof.
  split.
  - intros Hshort.
    destruct (fread_short sizeof_feat_t (_Reader._fp self)) as (fp' & Hread & Heof);
      [done|].
    unfold _Reader.read. rewrite Hread. eexists. split; [done|]. done.
  - intros Hlong status out self' Hread.
    destruct (read_inv _ _ _ _ Hread)
      as [(_ & _ & Hshort)|(entries & fp' & -> & _ & -> & _ & Hentries & _)]; [lia|].
    destruct (read_entries_inv _ _ _ _ Hentries) as (Hlen & -> & _).
    eexists _, _. split; [done|]. split; [|done].
    cbn [_Reader._fp]. rewrite advance_advance, length_app, Hlen.
    f_equal. simpl. lia.
Qed.

(** X19.  [dump] raises its assertion error whenever the path names a
    directory or [fopen] refuses it, whatever the table and the class
    count, and, for a table of well-formed vectors and a class count that
    fits, whenever [fclose] reports a nonzero status.  When [dump] returns
    normally none of the three is the case, and the class count fits
    [class_t]. *)
Theorem dump_outcome cmp (weights : PreshMap) os nr_class loc :
  (path_isdir os loc = true \/ loc ∈ os_fopen_refused os ->
   dump cmp weights os nr_class loc = Raise AssertionError)
  /\ (in_int32 nr_class = true -> store_ok weights = true ->
      os_fclose_status os <> 0 ->
      dump cmp weights os nr_class loc = Raise AssertionError)
  /\ (forall (weights' : PreshMap) os',
        dump cmp weights os nr_class loc = Ok (weights', os') ->
        path_isdir os loc = false /\ (loc ∉ os_fopen_refused os)
        /\ os_fclose_status os = 0 /\ in_int32 nr_class = true).
Proof.
  assert (path_isdir os loc = true \/ loc ∈ os_fopen_refused os ->
          _Writer.__init__ os loc nr_class = Raise AssertionError) as Hinit.
  { unfold _Writer.__init__, fopen, path_exists, path_isdir.
    intros [Hdir|Hrefused].
    - by destruct (os_fs os !! loc) as [[|?]|].
    - rewrite (bool_decide_eq_true_2 _ Hrefused).
      by destruct (os_fs os !! loc) as [[|?]|]. }
  split; [|split].
  - intros H. unfold dump. by rewrite (Hinit H).
  - intros Hnr Hok Hclose.
    destruct (path_isdir os loc) eqn:Hdir.
    { unfold dump. rewrite Hinit by (by left). done. }
    destruct (decide (loc ∈ os_fopen_refused os)) as [Hrefused|Hopen].
    { unfold dump. rewrite Hinit by (by right). done. }
    unfold dump. rewrite Writer_init_ok by done.
    unfold mbind at 1, result_bind at 1. cbv beta iota.
    rewrite dump_loop_store; [|apply at_end_append|].
    2:{ apply Forall_forall. intros [k v] Hkv%elem_of_map_to_list.
        by apply (store_ok_inv weights k v). }
    unfold mbind at 1, result_bind at 1. cbv beta iota.
    unfold _Writer.close, fclose. cbn [os_fclose_status].
    destruct (Z.eqb_spec (os_fclose_status os) 0) as [?|Hne]; [done|].
    by destruct (Z.eqb_spec (os_fclose_status os) 0).
  - intros weights' os'. unfold dump.
    destruct (path_isdir os loc) eqn:Hdir.
    { rewrite Hinit by (by left). done. }
    destruct (decide (loc ∈ os_fopen_refused os)) as [Hrefused|Hopen].
    { rewrite Hinit by (by right). done. }
    destruct (in_int32 nr_class) eqn:Hnr.
    2:{ unfold _Writer.__init__, fopen. rewrite Hdir, andb_false_r, Hnr.
        rewrite bool_decide_eq_false_2 by done.
        by destruct (os_fs os !! loc) as [[|?]|]. }
    rewrite Writer_init_ok by done.
    unfold mbind at 1, result_bind at 1. cbv beta iota.
    destruct (dump_loop _ _ _ _) as [[writer' w']|]; [|done].
    unfold mbind at 1, result_bind at 1. cbv beta iota.
    unfold _Writer.close, fclose. cbn [os_fclose_status].
    destruct (Z.eqb_spec (os_fclose_status os) 0) as [Hclose|Hne].
    + done.
    + by destruct (Z.eqb_spec (os_fclose_status os) 0).
Qed.

Lemma dump_outcome_witness :
  dump cmp_equal store_example (mkOS {[ "model"%string := Directory ]} ∅ 0) 10 "model"
  = Raise AssertionError.
Proof.
  apply (proj1 (dump_outcome cmp_equal store_example
                  (mkOS {[ "model"%string := Directory ]} ∅ 0) 10 "model")).
  left. reflexivity.
Defined.
